(** * Deployment workflow state store and subnet calculator

    A shallow embedding of [src/services/redis_store.py] (the class
    [RedisStateStore]) and of [src/services/network_calculator.py]
    (the class [NetworkCalculator]), followed by the properties of the
    workflow state machine that hold, and fail, on that code.

    Python values are modelled as follows:
    - [int] as [Z]; [str] as [string]; [None | T] as [option T];
    - the [dict[int, StepState]] of an aggregate as [gmap Z StepState];
    - the Redis database behind a client as [gmap string DeploymentState]:
      the value written under a key is [state.model_dump_json()] and the
      value read back goes through [DeploymentState.model_validate_json],
      a lossless round trip of the model, so the database is taken to hold
      the aggregate itself;
    - [datetime.utcnow().isoformat()] as a timestamp handed to the
      operation, one argument per call of the clock in the source;
    - a method that writes to Redis as a function returning the new store
      next to the method's result. *)

From Stdlib Require Import ZArith String Ascii List Lia DecimalString.
From Stdlib Require DecimalZ.
From stdpp Require Import gmap strings list fin_maps.

Local Open Scope string_scope.

(** ** Data model *)

Definition timestamp := string.

(** The result payload of a step is an opaque JSON document. The store
    holds the JSON image of the dictionary the caller passed; a payload
    and its image are not told apart here, so no property compares the
    payload a call returns with the payload that is stored. *)
Definition payload := string.

(** Modelled from the spec: the enum [StepStatus] of
    [src/models/orchestrator.py], which is not among the sources; its
    members are those of section 3, "Step Entity". *)
Module StepStatus.
Inductive t := PENDING | IN_PROGRESS | COMPLETED | FAILED.
End StepStatus.

(** Modelled from the spec: the enum [DeploymentStatus] of
    [src/models/orchestrator.py]; its members are those of section 3,
    "Deployment Aggregate". *)
Module DeploymentStatus.
Inductive t := IN_PROGRESS | COMPLETED | FAILED.
End DeploymentStatus.

#[global] Instance StepStatus_eq_dec : EqDecision StepStatus.t.
Proof. solve_decision. Defined.

#[global] Instance DeploymentStatus_eq_dec : EqDecision DeploymentStatus.t.
Proof. solve_decision. Defined.

(** Modelled from the spec: the model class [StepState]; fields as in
    section 3. *)
Record StepState := mkStepState {
  step_num : Z;
  name : string;
  status : StepStatus.t;
  started_at : option timestamp;
  completed_at : option timestamp;
  result : option payload;
  error : option string
}.

(** Modelled from the spec: the model class [DeploymentState]; fields as
    in section 3. *)
Record DeploymentState := mkDeploymentState {
  site_id : string;
  org_id : string;
  site_name : string;
  dstatus : DeploymentStatus.t;
  steps : gmap Z StepState;
  current_step : option Z;
  total_steps : Z;
  created_at : timestamp;
  updated_at : timestamp
}.

(** Modelled from the spec: the default of [DeploymentState.total_steps],
    "fixed expected step count for this workflow type (constant, e.g. 13)";
    the docstring of [start_step] numbers the steps 1-13. *)
Definition default_total_steps : Z := 13.

(** [StepState(step_num=.., name=..)] with every other field at its
    default; the default status is [PENDING] (section 4.1). *)
Definition StepState_new (n : Z) (nm : string) : StepState :=
  mkStepState n nm StepStatus.PENDING None None None None.

(** Field updates of the two records, as the attribute assignments of the
    source. *)
Definition set_status (v : StepStatus.t) (s : StepState) : StepState :=
  mkStepState (step_num s) (name s) v (started_at s) (completed_at s)
              (result s) (error s).

Definition set_completed_at (v : option timestamp) (s : StepState) : StepState :=
  mkStepState (step_num s) (name s) (status s) (started_at s) v
              (result s) (error s).

Definition set_result (v : option payload) (s : StepState) : StepState :=
  mkStepState (step_num s) (name s) (status s) (started_at s)
              (completed_at s) v (error s).

Definition set_error (v : option string) (s : StepState) : StepState :=
  mkStepState (step_num s) (name s) (status s) (started_at s)
              (completed_at s) (result s) v.

Definition set_steps (v : gmap Z StepState) (d : DeploymentState) : DeploymentState :=
  mkDeploymentState (site_id d) (org_id d) (site_name d) (dstatus d) v
                    (current_step d) (total_steps d) (created_at d)
                    (updated_at d).

Definition set_current_step (v : option Z) (d : DeploymentState) : DeploymentState :=
  mkDeploymentState (site_id d) (org_id d) (site_name d) (dstatus d)
                    (steps d) v (total_steps d) (created_at d)
                    (updated_at d).

Definition set_dstatus (v : DeploymentStatus.t) (d : DeploymentState) : DeploymentState :=
  mkDeploymentState (site_id d) (org_id d) (site_name d) v (steps d)
                    (current_step d) (total_steps d) (created_at d)
                    (updated_at d).

Definition set_updated_at (v : timestamp) (d : DeploymentState) : DeploymentState :=
  mkDeploymentState (site_id d) (org_id d) (site_name d) (dstatus d)
                    (steps d) (current_step d) (total_steps d)
                    (created_at d) v.

(** ** The Redis client *)

(** Modelled from the spec: [RedisClient] of [src/redis], which is not
    among the sources; section 6 gives it [get], [set] and [keys]. *)
Abbreviation RedisClient := (gmap string DeploymentState).

Definition client_get (c : RedisClient) (k : string) : option DeploymentState :=
  c !! k.

Definition client_set (c : RedisClient) (k : string) (v : DeploymentState) : RedisClient :=
  <[k := v]> c.

(** [client.keys(p + "*")]: the keys that start with [p]. *)
Definition client_keys (c : RedisClient) (p : string) : list string :=
  List.filter (String.prefix p) (List.map fst (map_to_list c)).

(** ** Python string helpers *)

(** [s.replace(old, new)] for a non-empty [old]: every occurrence of
    [old], found from the left and not overlapping an earlier one, gives
    way to [new]. [skip] counts the characters of a matched occurrence
    still to be dropped. *)
Fixpoint replace_from (old new : string) (skip : nat) (s : string) : string :=
  match s with
  | EmptyString => EmptyString
  | String c s' =>
      match skip with
      | S k => replace_from old new k s'
      | O =>
          if String.prefix old s
          then new ++ replace_from old new (String.length old - 1) s'
          else String c (replace_from old new 0 s')
      end
  end.

Definition str_replace (s old new : string) : string :=
  replace_from old new 0 s.

(** [f"{n}"] for an integer. *)
Definition str_of_int (n : Z) : string :=
  NilZero.string_of_int (Z.to_int n).

(** ** RedisStateStore *)

Record RedisStateStore := mkStore { client : option RedisClient }.

Definition _key (site : string) : string := "deployment:" ++ site.

(** [if self.client: self.client.set(self._key(site_id), state.model_dump_json())] *)
Definition persist (st : RedisStateStore) (site : string) (d : DeploymentState)
  : RedisStateStore :=
  match client st with
  | Some c => mkStore (Some (client_set c (_key site) d))
  | None => st
  end.

Definition create_deployment (st : RedisStateStore) (site org nm : string)
    (now : timestamp) : RedisStateStore * DeploymentState :=
  let state :=
    mkDeploymentState site org nm DeploymentStatus.IN_PROGRESS ∅ None
                      default_total_steps now now in
  (persist st site state, state).

Definition get_deployment (st : RedisStateStore) (site : string)
  : option DeploymentState :=
  match client st with
  | None => None
  | Some c => client_get c (_key site)
  end.

(** The part of [start_step] that follows the read of the aggregate:
    [Some d] is the aggregate to write back, [None] stands for the early
    return. *)
Definition start_step_on (state : option DeploymentState) (n : Z) (nm : string)
    (t_started t_updated : timestamp) : option DeploymentState * StepState :=
  match state with
  | None => (None, StepState_new n nm)
  | Some d =>
      let step :=
        mkStepState n nm StepStatus.IN_PROGRESS (Some t_started) None None None in
      let d := set_steps (<[n := step]> (steps d)) d in
      let d := set_current_step (Some n) d in
      let d := set_dstatus DeploymentStatus.IN_PROGRESS d in
      let d := set_updated_at t_updated d in
      (Some d, step)
  end.

(** [sum(1 for s in state.steps.values() if s.status == StepStatus.COMPLETED)] *)
Definition is_completed (s : StepState) : bool :=
  bool_decide (status s = StepStatus.COMPLETED).

Definition completed_count (m : gmap Z StepState) : Z :=
  Z.of_nat (length (List.filter is_completed (List.map snd (map_to_list m)))).

Definition complete_step_on (state : option DeploymentState) (n : Z)
    (res : option payload) (t_completed t_updated : timestamp)
  : option DeploymentState * StepState :=
  let synthetic :=
    mkStepState n "unknown" StepStatus.COMPLETED None None None None in
  match state with
  | None => (None, synthetic)
  | Some d =>
      match steps d !! n with
      | None => (None, synthetic)
      | Some step =>
          let step := set_status StepStatus.COMPLETED step in
          let step := set_completed_at (Some t_completed) step in
          let step := set_result res step in
          let d := set_steps (<[n := step]> (steps d)) d in
          let d := set_updated_at t_updated d in
          let d :=
            if (total_steps d <=? completed_count (steps d))%Z
            then set_dstatus DeploymentStatus.COMPLETED d
            else d in
          (Some d, step)
      end
  end.

Definition fail_step_on (state : option DeploymentState) (n : Z)
    (err : string) (t_completed t_updated : timestamp)
  : option DeploymentState * StepState :=
  let synthetic :=
    mkStepState n "unknown" StepStatus.FAILED None None None (Some err) in
  match state with
  | None => (None, synthetic)
  | Some d =>
      match steps d !! n with
      | None => (None, synthetic)
      | Some step =>
          let step := set_status StepStatus.FAILED step in
          let step := set_error (Some err) step in
          let step := set_completed_at (Some t_completed) step in
          let d := set_steps (<[n := step]> (steps d)) d in
          let d := set_dstatus DeploymentStatus.FAILED d in
          let d := set_updated_at t_updated d in
          (Some d, step)
      end
  end.

(** The write that ends each of the three transitions. *)
Definition write_back (st : RedisStateStore) (site : string)
    (r : option DeploymentState * StepState) : RedisStateStore * StepState :=
  match fst r with
  | Some d => (persist st site d, snd r)
  | None => (st, snd r)
  end.

Definition start_step (st : RedisStateStore) (site : string) (n : Z)
    (nm : string) (t_started t_updated : timestamp)
  : RedisStateStore * StepState :=
  write_back st site
    (start_step_on (get_deployment st site) n nm t_started t_updated).

Definition complete_step (st : RedisStateStore) (site : string) (n : Z)
    (res : option payload) (t_completed t_updated : timestamp)
  : RedisStateStore * StepState :=
  write_back st site
    (complete_step_on (get_deployment st site) n res t_completed t_updated).

Definition fail_step (st : RedisStateStore) (site : string) (n : Z)
    (err : string) (t_completed t_updated : timestamp)
  : RedisStateStore * StepState :=
  write_back st site
    (fail_step_on (get_deployment st site) n err t_completed t_updated).

Definition is_step_completed (st : RedisStateStore) (site : string) (n : Z)
  : bool :=
  match get_deployment st site with
  | None => false
  | Some d =>
      match steps d !! n with
      | Some s => bool_decide (status s = StepStatus.COMPLETED)
      | None => false
      end
  end.

Definition list_deployments (st : RedisStateStore) : list string :=
  match client st with
  | None => []
  | Some c =>
      List.map (fun k => str_replace k "deployment:" "")
               (client_keys c "deployment:")
  end.


(** ** Sequences of calls

    A driver is a sequence of calls on one store; each call carries the
    arguments of the method and the readings of the clock it makes. *)

Inductive Call :=
  | CreateDeployment (site org nm : string) (now : timestamp)
  | StartStep (site : string) (n : Z) (nm : string)
              (t_started t_updated : timestamp)
  | CompleteStep (site : string) (n : Z) (res : option payload)
                 (t_completed t_updated : timestamp)
  | FailStep (site : string) (n : Z) (err : string)
             (t_completed t_updated : timestamp).

Definition call (st : RedisStateStore) (c : Call) : RedisStateStore :=
  match c with
  | CreateDeployment site org nm now =>
      fst (create_deployment st site org nm now)
  | StartStep site n nm t1 t2 => fst (start_step st site n nm t1 t2)
  | CompleteStep site n res t1 t2 => fst (complete_step st site n res t1 t2)
  | FailStep site n err t1 t2 => fst (fail_step st site n err t1 t2)
  end.

Definition run (st : RedisStateStore) (cs : list Call) : RedisStateStore :=
  fold_left call cs st.

(** A store on an empty database, and a store without a client. *)
Definition empty_store : RedisStateStore := mkStore (Some ∅).
Definition no_store : RedisStateStore := mkStore None.

(** The status of step [n] of the aggregate persisted for [site]. *)
Definition step_status (st : RedisStateStore) (site : string) (n : Z)
  : option StepStatus.t :=
  match get_deployment st site with
  | Some d => status <$> steps d !! n
  | None => None
  end.

(** The status of the aggregate persisted for [site]. *)
Definition deployment_status (st : RedisStateStore) (site : string)
  : option DeploymentStatus.t :=
  dstatus <$> get_deployment st site.

(** ** Two workers on one site

    Each worker holds its own [RedisStateStore] on the shared database.
    [complete_step] reads the aggregate, computes and writes; two workers
    that both read before either writes run the four phases below in this
    order. *)
Definition complete_step_race (st : RedisStateStore) (site : string)
    (n1 n2 : Z) (res1 res2 : option payload)
    (ta1 ta2 tb1 tb2 : timestamp) : RedisStateStore :=
  let read1 := get_deployment st site in
  let read2 := get_deployment st site in
  let st := fst (write_back st site (complete_step_on read1 n1 res1 ta1 ta2)) in
  fst (write_back st site (complete_step_on read2 n2 res2 tb1 tb2)).

(** The same two calls, one after the other. *)
Definition complete_step_serial (st : RedisStateStore) (site : string)
    (n1 n2 : Z) (res1 res2 : option payload)
    (ta1 ta2 tb1 tb2 : timestamp) : RedisStateStore :=
  let st := fst (complete_step st site n1 res1 ta1 ta2) in
  fst (complete_step st site n2 res2 tb1 tb2).

(** ** NetworkCalculator *)

Record IPAllocation := mkIPAllocation {
  zone_id : Z;
  alloc_site_id : Z;
  management_subnet : string;
  data_subnet : string;
  voice_subnet : string;
  guest_subnet : string;
  iot_subnet : string
}.

(** [f"10.{a}.{b}.0/24"] *)
Definition subnet24 (a b : Z) : string :=
  "10." ++ str_of_int a ++ "." ++ str_of_int b ++ ".0/24".

(** [calculate_site_subnets]; [inl msg] stands for [ValueError(msg)]. *)
Definition calculate_site_subnets (zone site : Z) : string + IPAllocation :=
  if negb ((1 <=? zone)%Z && (zone <=? 255)%Z)
  then inl ("Zone ID must be 1-255, got " ++ str_of_int zone)
  else if negb ((1 <=? site)%Z && (site <=? 255)%Z)
  then inl ("Site ID must be 1-255, got " ++ str_of_int site)
  else inr (mkIPAllocation zone site
              (subnet24 zone site)
              (subnet24 (100 + zone) site)
              (subnet24 (150 + zone) site)
              (subnet24 (200 + zone) site)
              (subnet24 (220 + zone) site)).

(** The five subnets of an allocation, in the order of the fields. *)
Definition subnets_of (a : IPAllocation) : list string :=
  [management_subnet a; data_subnet a; voice_subnet a; guest_subnet a;
   iot_subnet a].

(** ** Vocabulary of the properties *)

(** What one step adds to [completed_count]. *)
Definition completed_weight (s : StepState) : Z :=
  if is_completed s then 1%Z else 0%Z.

Definition terminal (v : StepStatus.t) : Prop :=
  v = StepStatus.COMPLETED ∨ v = StepStatus.FAILED.

(** Whether call [c] is a step transition addressed to step [n] of [site]. *)
Definition addresses (site : string) (n : Z) (c : Call) : bool :=
  match c with
  | CreateDeployment _ _ _ _ => false
  | StartStep site' n' _ _ _
  | CompleteStep site' n' _ _ _
  | FailStep site' n' _ _ _ => bool_decide (site' = site ∧ n' = n)
  end.

(** Whether call [c] creates the deployment of [site] anew. *)
Definition recreates (site : string) (c : Call) : bool :=
  match c with
  | CreateDeployment site' _ _ _ => bool_decide (site' = site)
  | _ => false
  end.

(** The status of step [n] of [site] after call [c], when it was [v]
    before and the step is stored. *)
Definition step_after (site : string) (n : Z) (v : StepStatus.t) (c : Call)
  : StepStatus.t :=
  if addresses site n c then
    match c with
    | CreateDeployment _ _ _ _ => v
    | StartStep _ _ _ _ _ => StepStatus.IN_PROGRESS
    | CompleteStep _ _ _ _ _ => StepStatus.COMPLETED
    | FailStep _ _ _ _ _ => StepStatus.FAILED
    end
  else v.

(** The arguments of a [complete_step] call on a known site. *)
Definition CompleteArgs : Type := Z * option payload * timestamp * timestamp.

Definition complete_calls (site : string) (args : list CompleteArgs) : list Call :=
  List.map (fun a : CompleteArgs =>
              let '(n, res, t1, t2) := a in CompleteStep site n res t1 t2) args.

Definition step_nums (args : list CompleteArgs) : list Z :=
  List.map (fun a : CompleteArgs => let '(n, _, _, _) := a in n) args.

(** Whether [c] is a [complete_step] on step [n] of [site]. *)
Definition completes (site : string) (n : Z) (c : Call) : bool :=
  match c with
  | CompleteStep site' n' _ _ _ => bool_decide (site' = site ∧ n' = n)
  | _ => false
  end.

(** The invariant of a step entity as section 3 states it. *)
Definition step_inv (s : StepState) : Prop :=
  (is_Some (completed_at s) → terminal (status s)) ∧
  (is_Some (result s) → status s = StepStatus.COMPLETED) ∧
  (is_Some (error s) → status s = StepStatus.FAILED).

(** The invariant the transitions keep on every stored step. *)
Definition step_inv_weak (s : StepState) : Prop :=
  (is_Some (completed_at s) → terminal (status s)) ∧
  (is_Some (result s) → terminal (status s)) ∧
  (is_Some (error s) → terminal (status s)).

(** Whether call [c], made on store [st], completes a step that holds an
    error or fails a step that holds a result. *)
Definition mixes (st : RedisStateStore) (c : Call) : bool :=
  match c with
  | CompleteStep site n _ _ _ =>
      match get_deployment st site with
      | Some d =>
          match steps d !! n with
          | Some s => bool_decide (is_Some (error s))
          | None => false
          end
      | None => false
      end
  | FailStep site n _ _ _ =>
      match get_deployment st site with
      | Some d =>
          match steps d !! n with
          | Some s => bool_decide (is_Some (result s))
          | None => false
          end
      | None => false
      end
  | _ => false
  end.

(** No call of the sequence, made in turn from [st], mixes outcomes. *)
Fixpoint unmixed (st : RedisStateStore) (cs : list Call) : bool :=
  match cs with
  | [] => true
  | c :: cs' => negb (mixes st c) && unmixed (call st c) cs'
  end.

(** Entries of a steps mapping under key [n]. *)
Definition entries_for (n : Z) (m : gmap Z StepState) : list (Z * StepState) :=
  List.filter (fun kv => bool_decide (fst kv = n)) (map_to_list m).

(** Step [k] of aggregate [d] is stored with status [COMPLETED]. *)
Definition done_in (d : DeploymentState) (k : Z) : Prop :=
  ∃ s, steps d !! k = Some s ∧ status s = StepStatus.COMPLETED.

(** The aggregate status [complete_step] leaves, from an aggregate [d]
    whose completed steps are those of [m]. *)
Definition status_for_count (d : DeploymentState) (m : gmap Z StepState)
  : DeploymentStatus.t :=
  if (total_steps d <=? completed_count m)%Z
  then DeploymentStatus.COMPLETED else dstatus d.

(** What the transitions keep between the aggregate status and the count
    of completed steps. *)
Definition agg_inv (d : DeploymentState) : Prop :=
  (dstatus d = DeploymentStatus.COMPLETED →
     (total_steps d ≤ completed_count (steps d))%Z) ∧
  ((total_steps d ≤ completed_count (steps d))%Z →
     (Z.of_nat (size (steps d)) ≤ total_steps d)%Z →
     dstatus d = DeploymentStatus.COMPLETED).

(** Every persisted aggregate satisfies [P]. *)
Definition store_all (P : DeploymentState → Prop) (st : RedisStateStore) : Prop :=
  ∀ site d, get_deployment st site = Some d → P d.

(** Every step of the aggregate satisfies [Q]. *)
Definition steps_all (Q : StepState → Prop) (d : DeploymentState) : Prop :=
  ∀ n s, steps d !! n = Some s → Q s.

(** Whether [old] occurs somewhere in [s]. *)
Fixpoint occurs (old s : string) : bool :=
  String.prefix old s ||
  match s with
  | EmptyString => false
  | String _ s' => occurs old s'
  end.

(** ** Vocabulary of the further properties *)

(** The site a call is addressed to. *)
Definition call_site (c : Call) : string :=
  match c with
  | CreateDeployment site _ _ _
  | StartStep site _ _ _ _
  | CompleteStep site _ _ _ _
  | FailStep site _ _ _ _ => site
  end.

(** The step a call returns: [create_deployment] returns the aggregate and
    no step. *)
Definition call_result (st : RedisStateStore) (c : Call) : option StepState :=
  match c with
  | CreateDeployment _ _ _ _ => None
  | StartStep site n nm t1 t2 => Some (snd (start_step st site n nm t1 t2))
  | CompleteStep site n res t1 t2 => Some (snd (complete_step st site n res t1 t2))
  | FailStep site n err t1 t2 => Some (snd (fail_step st site n err t1 t2))
  end.

(** The step of a call, when it is a step transition. *)
Definition call_step (c : Call) : option Z :=
  match c with
  | CreateDeployment _ _ _ _ => None
  | StartStep _ n _ _ _ | CompleteStep _ n _ _ _ | FailStep _ n _ _ _ => Some n
  end.

(** What every step stored under key [n] looks like. *)
Definition step_wf (n : Z) (s : StepState) : Prop :=
  step_num s = n ∧
  is_Some (started_at s) ∧
  status s ≠ StepStatus.PENDING ∧
  (status s = StepStatus.IN_PROGRESS ↔ completed_at s = None).

(** What every aggregate persisted for [site] looks like. *)
Definition agg_wf (site : string) (d : DeploymentState) : Prop :=
  site_id d = site ∧
  total_steps d = default_total_steps ∧
  (∀ n s, steps d !! n = Some s → step_wf n s) ∧
  (current_step d = None ↔ steps d = ∅) ∧
  (∀ n, current_step d = Some n → is_Some (steps d !! n)).

(** The keys of the database behind a store. *)
Definition stored_keys (st : RedisStateStore) : gset string :=
  match client st with
  | Some c => dom c
  | None => ∅
  end.

(** The offsets [calculate_site_subnets] adds to the zone id, in the
    order of the fields of the allocation. *)
Definition vlan_offsets : list Z := [0; 100; 150; 200; 220]%Z.

(** No character of [s] is a dot. *)
Fixpoint no_dot (s : string) : bool :=
  match s with
  | EmptyString => true
  | String c s' => negb (Ascii.eqb c ".") && no_dot s'
  end.

(** A value of the dictionary [calculate_zone_summary] returns. *)
Inductive SummaryValue :=
  | VInt (n : Z)
  | VStr (s : string).

(** [f"10.{a}.0.0/16"] *)
Definition range16 (a : Z) : string :=
  "10." ++ str_of_int a ++ ".0.0/16".

(** [calculate_zone_summary]: the dictionary, as its items in order. *)
Definition calculate_zone_summary (zone : Z) : list (string * SummaryValue) :=
  [("zone_id", VInt zone);
   ("management_range", VStr (range16 zone));
   ("data_range", VStr (range16 (100 + zone)));
   ("voice_range", VStr (range16 (150 + zone)));
   ("guest_range", VStr (range16 (200 + zone)));
   ("iot_range", VStr (range16 (220 + zone)));
   ("max_sites", VInt 255)].

(** [d[k]] on the items of a dictionary. *)
Fixpoint dict_get (k : string) (d : list (string * SummaryValue))
  : option SummaryValue :=
  match d with
  | [] => None
  | (k', v) :: d' => if String.eqb k k' then Some v else dict_get k d'
  end.

(** The five range entries of a zone summary, in the order of the subnets
    of an allocation. *)
Definition summary_ranges (d : list (string * SummaryValue)) : list (option SummaryValue) :=
  List.map (fun k => dict_get k d)
    ["management_range"; "data_range"; "voice_range"; "guest_range"; "iot_range"].

(** The first two octets of a dotted address, with their dots. *)
Definition octets2 (a : Z) : string := "10." ++ str_of_int a ++ ".".


(** Two calls of the same method with the same arguments; the clock
    readings may differ. *)
Definition same_call (c c' : Call) : bool :=
  match c, c' with
  | CreateDeployment s o nm _, CreateDeployment s' o' nm' _ =>
      bool_decide (s = s' ∧ o = o' ∧ nm = nm')
  | StartStep s n nm _ _, StartStep s' n' nm' _ _ =>
      bool_decide (s = s' ∧ n = n' ∧ nm = nm')
  | CompleteStep s n res _ _, CompleteStep s' n' res' _ _ =>
      bool_decide (s = s' ∧ n = n' ∧ res = res')
  | FailStep s n err _ _, FailStep s' n' err' _ _ =>
      bool_decide (s = s' ∧ n = n' ∧ err = err')
  | _, _ => false
  end.

(** A step and an aggregate with their timestamps blanked. *)
Definition untimed_step (s : StepState) : StepState :=
  mkStepState (step_num s) (name s) (status s) None None (result s) (error s).

Definition untimed (d : DeploymentState) : DeploymentState :=
  mkDeploymentState (site_id d) (org_id d) (site_name d) (dstatus d)
                    (untimed_step <$> steps d) (current_step d)
                    (total_steps d) "" "".


(** The sites for which a sequence of calls creates a deployment. *)
Definition created_sites (cs : list Call) : list string :=
  List.flat_map (fun c => match c with
                          | CreateDeployment site _ _ _ => [site]
                          | _ => []
                          end) cs.

(** What [list_deployments] makes of the key of a site. *)
Definition listed_as (site : string) : string :=
  str_replace (_key site) "deployment:" "".


(** The part of a dotted address up to and including its dot number
    [k] (counted from 0). *)
Fixpoint upto_dot (k : nat) (s : string) : string :=
  match s with
  | EmptyString => EmptyString
  | String c s' =>
      if Ascii.eqb c "."
      then match k with
           | O => String c EmptyString
           | S k' => String c (upto_dot k' s')
           end
      else String c (upto_dot k s')
  end.

(** The /16 network an address lies in: its first two octets. *)
Definition network16 (s : string) : string := upto_dot 1 s.

(** The string of a summary value, when it is one. *)
Definition summary_string (v : option SummaryValue) : string :=
  match v with
  | Some (VStr s) => s
  | _ => ""
  end.


(** The aggregate found after [complete_step], given the aggregate found
    before it. *)
Definition after_complete (o : option DeploymentState) (n : Z)
    (res : option payload) (t1 t2 : timestamp) : option DeploymentState :=
  match fst (complete_step_on o n res t1 t2) with
  | Some d => Some d
  | None => o
  end.


(** ** The documented range of step numbers *)

(** [start_step] documents its step number as 1-13, the steps of a
    deployment with [total_steps] 13: whether a call keeps to that. The
    step number of [complete_step] and [fail_step] needs no check, a step
    that was not started is not stored. *)
Definition call_in_range (c : Call) : bool :=
  match c with
  | StartStep _ n _ _ _ => (1 <=? n)%Z && (n <=? default_total_steps)%Z
  | _ => true
  end.

Definition in_step_range (cs : list Call) : bool := forallb call_in_range cs.

(** An aggregate of [default_total_steps] steps whose stored step
    numbers lie in the documented range. *)
Definition steps_in_range (d : DeploymentState) : Prop :=
  total_steps d = default_total_steps ∧
  ∀ n, is_Some (steps d !! n) → (1 ≤ n ≤ default_total_steps)%Z.

(** ** Sample runs *)

Definition starts (site : string) (ns : list Z) : list Call :=
  List.map (fun n => StartStep site n "step" "t1" "t2") ns.

Definition sample_args (ns : list Z) : list CompleteArgs :=
  List.map (fun n => (n, Some "{}", "t3", "t4")) ns.

(** Site S1 created and its steps 1 to 13 started. *)
Definition lab_started : RedisStateStore :=
  run empty_store
      (CreateDeployment "S1" "O1" "Lab-1" "t0" :: starts "S1" (seqZ 1 13)).

(** ... and then all thirteen completed. *)
Definition lab_completed : RedisStateStore :=
  run lab_started (complete_calls "S1" (sample_args (seqZ 1 13))).

(** A step completed with a result and then failed. *)
Definition completed_then_failed : list Call :=
  [CreateDeployment "S1" "O1" "Lab-1" "t0";
   StartStep "S1" 1 "claim" "t1" "t2";
   CompleteStep "S1" 1 (Some "{}") "t3" "t4";
   FailStep "S1" 1 "timeout" "t5" "t6"].

(** One step completed with a result, another failed. *)
Definition one_completed_one_failed : list Call :=
  [CreateDeployment "S1" "O1" "Lab-1" "t0";
   StartStep "S1" 1 "claim" "t1" "t2";
   CompleteStep "S1" 1 (Some "{}") "t3" "t4";
   StartStep "S1" 2 "assign" "t5" "t6";
   FailStep "S1" 2 "timeout" "t7" "t8"].

(* ================================================================== *)
(** * Properties *)

(** ** Reading back what was written *)

Lemma key_inj (a b : string) : _key a = _key b → a = b.
Proof. unfold _key. intros H. by simplify_eq/=. Qed.

Lemma get_persist (st : RedisStateStore) (site site' : string) (d : DeploymentState) :
  get_deployment (persist st site d) site' =
    match client st with
    | None => None
    | Some _ => if decide (site = site') then Some d else get_deployment st site'
    end.
Proof.
  unfold get_deployment, persist, client_get, client_set.
  destruct (client st) as [c|] eqn:Hc; simpl; [|by rewrite Hc].
  case_decide as Hs.
  - subst. apply lookup_insert_eq.
  - apply lookup_insert_ne. intros Hk. by apply Hs, key_inj.
Qed.

Lemma get_Some_client (st : RedisStateStore) (site : string) (d : DeploymentState) :
  get_deployment st site = Some d → ∃ c, client st = Some c.
Proof. unfold get_deployment. destruct (client st); [eauto | done]. Qed.

Lemma get_persist_eq (st : RedisStateStore) (site : string) (d0 d : DeploymentState) :
  get_deployment st site = Some d0 →
  get_deployment (persist st site d) site = Some d.
Proof.
  intros [c Hc]%get_Some_client. rewrite get_persist, Hc. by case_decide.
Qed.

Lemma get_persist_ne (st : RedisStateStore) (site site' : string) (d : DeploymentState) :
  site ≠ site' →
  get_deployment (persist st site d) site' = get_deployment st site'.
Proof.
  intros Hne. rewrite get_persist. unfold get_deployment.
  destruct (client st); [by case_decide | done].
Qed.

(** What a transition leaves under [site'], given the aggregate [o] it
    read and what it computed from it. *)
Lemma get_write_back (st : RedisStateStore) (site site' : string)
    (r : option DeploymentState * StepState) :
  (is_Some (fst r) → is_Some (get_deployment st site)) →
  get_deployment (fst (write_back st site r)) site' =
    match fst r with
    | Some d => if decide (site = site') then Some d else get_deployment st site'
    | None => get_deployment st site'
    end.
Proof.
  intros Hr. unfold write_back. destruct (fst r) as [d|] eqn:Hd; [|done].
  simpl. destruct Hr as [d0 Hd0]; [by eexists|].
  apply get_Some_client in Hd0 as [c Hc]. by rewrite get_persist, Hc.
Qed.

Lemma start_step_on_Some (o : option DeploymentState) n nm t1 t2 :
  is_Some (fst (start_step_on o n nm t1 t2)) → is_Some o.
Proof. destruct o; [by eexists | by intros [? ?]]. Qed.

Lemma complete_step_on_Some (o : option DeploymentState) n res t1 t2 :
  is_Some (fst (complete_step_on o n res t1 t2)) → is_Some o.
Proof. destruct o; [by eexists | by intros [? ?]]. Qed.

Lemma fail_step_on_Some (o : option DeploymentState) n err t1 t2 :
  is_Some (fst (fail_step_on o n err t1 t2)) → is_Some o.
Proof. destruct o; [by eexists | by intros [? ?]]. Qed.

Lemma get_start_step st site n nm t1 t2 site' :
  get_deployment (fst (start_step st site n nm t1 t2)) site' =
    match fst (start_step_on (get_deployment st site) n nm t1 t2) with
    | Some d => if decide (site = site') then Some d else get_deployment st site'
    | None => get_deployment st site'
    end.
Proof. apply get_write_back, start_step_on_Some. Qed.

Lemma get_complete_step st site n res t1 t2 site' :
  get_deployment (fst (complete_step st site n res t1 t2)) site' =
    match fst (complete_step_on (get_deployment st site) n res t1 t2) with
    | Some d => if decide (site = site') then Some d else get_deployment st site'
    | None => get_deployment st site'
    end.
Proof. apply get_write_back, complete_step_on_Some. Qed.

Lemma get_fail_step st site n err t1 t2 site' :
  get_deployment (fst (fail_step st site n err t1 t2)) site' =
    match fst (fail_step_on (get_deployment st site) n err t1 t2) with
    | Some d => if decide (site = site') then Some d else get_deployment st site'
    | None => get_deployment st site'
    end.
Proof. apply get_write_back, fail_step_on_Some. Qed.

Lemma get_create_deployment st site org nm now site' :
  get_deployment (fst (create_deployment st site org nm now)) site' =
    match client st with
    | None => None
    | Some _ =>
        if decide (site = site')
        then Some (snd (create_deployment st site org nm now))
        else get_deployment st site'
    end.
Proof. apply get_persist. Qed.

(** The aggregate each transition computes when the step is known. *)
Lemma complete_step_on_known d n res t1 t2 s :
  steps d !! n = Some s →
  ∃ d', fst (complete_step_on (Some d) n res t1 t2) = Some d' ∧
        total_steps d' = total_steps d ∧
        steps d' =
          <[n := set_result res
                   (set_completed_at (Some t1)
                      (set_status StepStatus.COMPLETED s))]> (steps d) ∧
        dstatus d' =
          (if (total_steps d <=? completed_count (steps d'))%Z
           then DeploymentStatus.COMPLETED else dstatus d).
Proof.
  intros Hs. unfold complete_step_on. rewrite Hs. cbn zeta.
  unfold set_updated_at at 1 2, set_steps at 1 2; simpl total_steps; simpl steps.
  destruct (_ <=? _)%Z eqn:Hle; cbn [fst]; eexists; (split; [reflexivity|]);
    unfold set_dstatus, set_updated_at, set_steps; simpl; rewrite ?Hle; done.
Qed.

Lemma fail_step_on_known d n err t1 t2 s :
  steps d !! n = Some s →
  ∃ d', fst (fail_step_on (Some d) n err t1 t2) = Some d' ∧
        total_steps d' = total_steps d ∧
        steps d' =
          <[n := set_completed_at (Some t1)
                   (set_error (Some err)
                      (set_status StepStatus.FAILED s))]> (steps d) ∧
        dstatus d' = DeploymentStatus.FAILED.
Proof.
  intros Hs. unfold fail_step_on. rewrite Hs. cbn [fst]. by eexists.
Qed.

Lemma start_step_on_known d n nm t1 t2 :
  ∃ d', fst (start_step_on (Some d) n nm t1 t2) = Some d' ∧
        total_steps d' = total_steps d ∧
        steps d' =
          <[n := mkStepState n nm StepStatus.IN_PROGRESS (Some t1)
                   None None None]> (steps d) ∧
        dstatus d' = DeploymentStatus.IN_PROGRESS.
Proof. by eexists. Qed.

Lemma complete_step_on_unknown d n res t1 t2 :
  steps d !! n = None → fst (complete_step_on (Some d) n res t1 t2) = None.
Proof. intros H. unfold complete_step_on. by rewrite H. Qed.

Lemma fail_step_on_unknown d n err t1 t2 :
  steps d !! n = None → fst (fail_step_on (Some d) n err t1 t2) = None.
Proof. intros H. unfold fail_step_on. by rewrite H. Qed.

(** ** Counting the completed steps *)

Lemma filter_length_Permutation {A} (f : A → bool) (l k : list A) :
  l ≡ₚ k → length (List.filter f l) = length (List.filter f k).
Proof.
  induction 1 as [|x l k _ IH|x y l|l k j _ IH1 _ IH2]; simpl.
  - done.
  - destruct (f x); simpl; congruence.
  - destruct (f x), (f y); reflexivity.
  - congruence.
Qed.

Lemma completed_count_empty : completed_count ∅ = 0%Z.
Proof. unfold completed_count. by rewrite map_to_list_empty. Qed.

Lemma completed_count_insert_fresh (m : gmap Z StepState) (i : Z) (x : StepState) :
  m !! i = None →
  completed_count (<[i := x]> m) = (completed_weight x + completed_count m)%Z.
Proof.
  intros Hi. unfold completed_count, completed_weight.
  rewrite (filter_length_Permutation _ _ (List.map snd ((i, x) :: map_to_list m))).
  - simpl. destruct (is_completed x); simpl; lia.
  - apply Permutation_map. by apply map_to_list_insert.
Qed.

Lemma completed_count_insert (m : gmap Z StepState) (i : Z) (x : StepState) :
  completed_count (<[i := x]> m) =
    (completed_weight x + completed_count (delete i m))%Z.
Proof.
  rewrite <-insert_delete_eq.
  apply completed_count_insert_fresh, lookup_delete_eq.
Qed.

Lemma completed_count_lookup (m : gmap Z StepState) (i : Z) (y : StepState) :
  m !! i = Some y →
  completed_count m = (completed_weight y + completed_count (delete i m))%Z.
Proof.
  intros Hi. rewrite <-(insert_id m i y) at 1 by done.
  apply completed_count_insert.
Qed.

Lemma completed_count_nonneg (m : gmap Z StepState) : (0 ≤ completed_count m)%Z.
Proof. unfold completed_count. lia. Qed.

Lemma completed_count_le_size (m : gmap Z StepState) :
  (completed_count m ≤ Z.of_nat (size m))%Z.
Proof.
  unfold completed_count. rewrite <-length_map_to_list.
  rewrite <-(length_map snd (map_to_list m)).
  apply inj_le, List.filter_length_le.
Qed.

Lemma completed_weight_bounds (s : StepState) :
  (0 ≤ completed_weight s ≤ 1)%Z.
Proof. unfold completed_weight. destruct (is_completed s); lia. Qed.

Lemma completed_weight_1 (s : StepState) :
  status s = StepStatus.COMPLETED → completed_weight s = 1%Z.
Proof.
  intros H. unfold completed_weight, is_completed. by rewrite bool_decide_eq_true_2.
Qed.

Lemma completed_weight_0 (s : StepState) :
  status s ≠ StepStatus.COMPLETED → completed_weight s = 0%Z.
Proof.
  intros H. unfold completed_weight, is_completed. by rewrite bool_decide_eq_false_2.
Qed.

(** A step that is not completed leaves the count below the size. *)
Lemma completed_count_lt_size (m : gmap Z StepState) (i : Z) (y : StepState) :
  m !! i = Some y → status y ≠ StepStatus.COMPLETED →
  (completed_count m < Z.of_nat (size m))%Z.
Proof.
  intros Hi Hy. rewrite (completed_count_lookup m i y Hi), completed_weight_0 by done.
  pose proof (completed_count_le_size (delete i m)) as Hle.
  rewrite map_size_delete_Some in Hle by eauto.
  assert (size m ≠ 0) by (apply map_size_ne_0_lookup_2 with i; eauto).
  lia.
Qed.

(** Completing a step never lowers the count. *)
Lemma completed_count_insert_completed (m : gmap Z StepState) (i : Z) (x y : StepState) :
  m !! i = Some y → status x = StepStatus.COMPLETED →
  (completed_count m ≤ completed_count (<[i := x]> m))%Z.
Proof.
  intros Hi Hx. rewrite completed_count_insert, (completed_count_lookup m i y Hi).
  rewrite (completed_weight_1 x Hx). pose proof (completed_weight_bounds y). lia.
Qed.

(** Distinct keys that all hold a completed step are counted. *)
Lemma completed_count_ge_keys (ns : list Z) (m : gmap Z StepState) :
  NoDup ns →
  (∀ n, n ∈ ns → ∃ s, m !! n = Some s ∧ status s = StepStatus.COMPLETED) →
  (Z.of_nat (length ns) ≤ completed_count m)%Z.
Proof.
  revert m. induction ns as [|n ns IH]; intros m Hnd Hall; simpl.
  - apply completed_count_nonneg.
  - apply NoDup_cons in Hnd as [Hn Hnd].
    destruct (Hall n) as (s & Hs & Hc); [by left|].
    rewrite (completed_count_lookup m n s Hs), (completed_weight_1 s Hc).
    assert (Z.of_nat (length ns) ≤ completed_count (delete n m))%Z; [|lia].
    apply IH; [done|]. intros k Hk.
    destruct (Hall k) as (s' & Hs' & Hc'); [by right|].
    exists s'. split; [|done]. rewrite lookup_delete_ne; [done|].
    intros ->. contradiction.
Qed.

(** ** The per-step state machine *)

Lemma step_status_Some st site n v :
  step_status st site n = Some v →
  ∃ d s, get_deployment st site = Some d ∧ steps d !! n = Some s ∧ status s = v.
Proof.
  unfold step_status. destruct (get_deployment st site) as [d|]; [|done].
  destruct (steps d !! n) as [s|] eqn:Hs; simpl; [|done].
  intros [= <-]. eauto.
Qed.

Lemma step_status_intro st site n d s :
  get_deployment st site = Some d → steps d !! n = Some s →
  step_status st site n = Some (status s).
Proof. intros Hd Hs. unfold step_status. by rewrite Hd, Hs. Qed.

Lemma step_status_write_back st site site' n r :
  (is_Some (fst r) → is_Some (get_deployment st site')) →
  step_status (fst (write_back st site' r)) site n =
    match fst r with
    | Some d' =>
        if decide (site' = site) then status <$> steps d' !! n
        else step_status st site n
    | None => step_status st site n
    end.
Proof.
  intros Hr. unfold step_status. rewrite get_write_back by done.
  destruct (fst r); [|done]. by case_decide.
Qed.

Lemma step_status_start_step st site n nm t1 t2 :
  is_Some (get_deployment st site) →
  step_status (fst (start_step st site n nm t1 t2)) site n
    = Some StepStatus.IN_PROGRESS.
Proof.
  intros [d Hd]. unfold start_step.
  rewrite step_status_write_back by apply start_step_on_Some.
  rewrite Hd. destruct (start_step_on_known d n nm t1 t2) as (d' & -> & _ & -> & _).
  rewrite decide_True by done. by rewrite lookup_insert_eq.
Qed.

Lemma step_status_complete_step st site n res t1 t2 :
  is_Some (step_status st site n) →
  step_status (fst (complete_step st site n res t1 t2)) site n
    = Some StepStatus.COMPLETED.
Proof.
  intros [v (d & s & Hd & Hs & _)%step_status_Some]. unfold complete_step.
  rewrite step_status_write_back by apply complete_step_on_Some.
  rewrite Hd.
  destruct (complete_step_on_known d n res t1 t2 s Hs) as (d' & -> & _ & -> & _).
  rewrite decide_True by done. by rewrite lookup_insert_eq.
Qed.

Lemma step_status_fail_step st site n err t1 t2 :
  is_Some (step_status st site n) →
  step_status (fst (fail_step st site n err t1 t2)) site n
    = Some StepStatus.FAILED.
Proof.
  intros [v (d & s & Hd & Hs & _)%step_status_Some]. unfold fail_step.
  rewrite step_status_write_back by apply fail_step_on_Some.
  rewrite Hd.
  destruct (fail_step_on_known d n err t1 t2 s Hs) as (d' & -> & _ & -> & _).
  rewrite decide_True by done. by rewrite lookup_insert_eq.
Qed.

(** A transition on another step, or on another site, leaves the status
    of step [n] of [site] as it was. *)
Lemma step_status_start_step_other st site n site' n' nm t1 t2 :
  ¬ (site' = site ∧ n' = n) →
  step_status (fst (start_step st site' n' nm t1 t2)) site n
    = step_status st site n.
Proof.
  intros Hne. unfold start_step.
  rewrite step_status_write_back by apply start_step_on_Some.
  destruct (get_deployment st site') as [d|] eqn:Hd; [|done].
  destruct (start_step_on_known d n' nm t1 t2) as (d' & -> & _ & -> & _).
  case_decide as Hs; [|done]. subst site'.
  rewrite lookup_insert_ne by naive_solver.
  unfold step_status. by rewrite Hd.
Qed.

Lemma step_status_complete_step_other st site n site' n' res t1 t2 :
  ¬ (site' = site ∧ n' = n) →
  step_status (fst (complete_step st site' n' res t1 t2)) site n
    = step_status st site n.
Proof.
  intros Hne. unfold complete_step.
  rewrite step_status_write_back by apply complete_step_on_Some.
  destruct (get_deployment st site') as [d|] eqn:Hd; [|done].
  destruct (steps d !! n') as [s|] eqn:Hs.
  - destruct (complete_step_on_known d n' res t1 t2 s Hs) as (d' & -> & _ & -> & _).
    case_decide as Hsite; [|done]. subst site'.
    rewrite lookup_insert_ne by naive_solver.
    unfold step_status. by rewrite Hd.
  - by rewrite complete_step_on_unknown.
Qed.

Lemma step_status_fail_step_other st site n site' n' err t1 t2 :
  ¬ (site' = site ∧ n' = n) →
  step_status (fst (fail_step st site' n' err t1 t2)) site n
    = step_status st site n.
Proof.
  intros Hne. unfold fail_step.
  rewrite step_status_write_back by apply fail_step_on_Some.
  destruct (get_deployment st site') as [d|] eqn:Hd; [|done].
  destruct (steps d !! n') as [s|] eqn:Hs.
  - destruct (fail_step_on_known d n' err t1 t2 s Hs) as (d' & -> & _ & -> & _).
    case_decide as Hsite; [|done]. subst site'.
    rewrite lookup_insert_ne by naive_solver.
    unfold step_status. by rewrite Hd.
  - by rewrite fail_step_on_unknown.
Qed.

Lemma step_status_create_other st site n site' org nm now :
  site' ≠ site →
  step_status (fst (create_deployment st site' org nm now)) site n
    = step_status st site n.
Proof.
  intros Hne. unfold step_status, create_deployment. cbn [fst].
  by rewrite get_persist_ne.
Qed.

(** ** C1: the failure law *)

(** C1, as stated, fails: [fail_step] on a step that was never started
    returns a synthetic step and writes nothing, so the aggregate of a
    freshly created deployment stays [IN_PROGRESS]. *)
Lemma fail_step_unknown_step_keeps_status :
  let st := fst (create_deployment empty_store "S1" "O1" "Lab-1" "t0") in
  let st' := fst (fail_step st "S1" 1 "timeout" "t1" "t2") in
  deployment_status st' "S1" = Some DeploymentStatus.IN_PROGRESS ∧
  deployment_status st' "S1" ≠ Some DeploymentStatus.FAILED.
Proof. split; [by vm_compute | by vm_compute]. Qed.

(** C1, amended: for every persisted aggregate and every step number
    present in its steps mapping, whatever the status of that step,
    [fail_step] leaves [get_deployment(site_id)] with status [FAILED]. *)
Theorem fail_step_fails_deployment st site n err t1 t2 d s :
  get_deployment st site = Some d →
  steps d !! n = Some s →
  deployment_status (fst (fail_step st site n err t1 t2)) site
    = Some DeploymentStatus.FAILED.
Proof.
  intros Hd Hs. unfold deployment_status. rewrite get_fail_step, Hd.
  destruct (fail_step_on_known d n err t1 t2 s Hs) as (d' & -> & _ & _ & Hst).
  rewrite decide_True by done. simpl. by rewrite Hst.
Qed.

Lemma fail_step_fails_deployment_witness :
  ∃ d s,
    get_deployment lab_completed "S1" = Some d ∧
    steps d !! 3%Z = Some s ∧
    status s = StepStatus.COMPLETED ∧
    deployment_status (fst (fail_step lab_completed "S1" 3 "timeout" "t5" "t6")) "S1"
      = Some DeploymentStatus.FAILED.
Proof.
  eexists _, _.
  split; [vm_compute; reflexivity|].
  split; [vm_compute; reflexivity|].
  split; [reflexivity|].
  eapply fail_step_fails_deployment; vm_compute; reflexivity.
Defined.

(** ** C2: terminal states of a step *)

(** C2, as stated, fails: [start_step] on a completed step puts it back
    to [IN_PROGRESS], [fail_step] moves a completed step to [FAILED] and
    [complete_step] moves a failed step to [COMPLETED]. *)
Lemma terminal_status_is_left :
  step_status lab_completed "S1" 3 = Some StepStatus.COMPLETED ∧
  step_status (call lab_completed (StartStep "S1" 3 "again" "t5" "t6")) "S1" 3
    = Some StepStatus.IN_PROGRESS ∧
  step_status (call lab_completed (FailStep "S1" 3 "late" "t5" "t6")) "S1" 3
    = Some StepStatus.FAILED ∧
  step_status
    (call (call lab_completed (FailStep "S1" 3 "late" "t5" "t6"))
          (CompleteStep "S1" 3 None "t7" "t8")) "S1" 3
    = Some StepStatus.COMPLETED.
Proof. repeat split; by vm_compute. Qed.

(** C2, amended: the status of a stored step changes only through a
    transition addressed to that very step (or when its deployment is
    created anew). A call on another step or another site leaves it as
    it is, and so does [complete_step] on a [COMPLETED] step and
    [fail_step] on a [FAILED] one; [start_step] gives [IN_PROGRESS],
    [complete_step] gives [COMPLETED] and [fail_step] gives [FAILED]
    from every prior status, terminal or not. *)
Theorem step_status_after_call st site n v c :
  step_status st site n = Some v →
  recreates site c = false →
  step_status (call st c) site n = Some (step_after site n v c).
Proof.
  intros Hv Hc. unfold step_after.
  destruct c as [site' org nm now|site' n' nm t1 t2|site' n' res t1 t2
                 |site' n' err t1 t2]; cbn [call recreates addresses] in *.
  - apply bool_decide_eq_false in Hc. by rewrite step_status_create_other.
  - case_bool_decide as Ha.
    + destruct Ha as [-> ->]. apply step_status_start_step.
      apply step_status_Some in Hv as (d & _ & Hd & _). by eexists.
    + by rewrite step_status_start_step_other.
  - case_bool_decide as Ha.
    + destruct Ha as [-> ->]. apply step_status_complete_step. by eexists.
    + by rewrite step_status_complete_step_other.
  - case_bool_decide as Ha.
    + destruct Ha as [-> ->]. apply step_status_fail_step. by eexists.
    + by rewrite step_status_fail_step_other.
Qed.

Lemma step_status_after_call_witness :
  step_status lab_completed "S1" 3 = Some StepStatus.COMPLETED ∧
  recreates "S1" (CompleteStep "S1" 4 None "t5" "t6") = false ∧
  step_status (call lab_completed (CompleteStep "S1" 4 None "t5" "t6")) "S1" 3
    = Some StepStatus.COMPLETED.
Proof.
  split; [by vm_compute|]. split; [reflexivity|].
  apply (step_status_after_call lab_completed "S1" 3 StepStatus.COMPLETED
           (CompleteStep "S1" 4 None "t5" "t6")).
  - by vm_compute.
  - reflexivity.
Defined.

(** ** C8: starting a step twice *)

Lemma snd_write_back st site r : snd (write_back st site r) = snd r.
Proof. unfold write_back. by destruct (fst r). Qed.

Lemma filter_none {A} (f : A → bool) (l : list A) :
  (∀ x, x ∈ l → f x = false) → List.filter f l = [].
Proof.
  induction l as [|x l IH]; intros Hl; simpl; [done|].
  rewrite (Hl x) by left. apply IH. intros y Hy. apply Hl. by right.
Qed.

Lemma entries_for_length (m : gmap Z StepState) (n : Z) (s : StepState) :
  m !! n = Some s → length (entries_for n m) = 1.
Proof.
  intros Hs. unfold entries_for.
  rewrite (filter_length_Permutation _ _ ((n, s) :: map_to_list (delete n m))).
  - simpl. rewrite bool_decide_eq_true_2 by done. simpl.
    rewrite filter_none; [done|]. intros [k x] Hk.
    apply elem_of_map_to_list in Hk. apply bool_decide_eq_false_2.
    simpl. intros ->. by rewrite lookup_delete_eq in Hk.
  - rewrite <-(insert_id m n s) at 1 by done. rewrite <-insert_delete_eq.
    apply map_to_list_insert, lookup_delete_eq.
Qed.

Lemma get_start_step_same st site n nm t1 t2 d :
  get_deployment st site = Some d →
  ∃ d', get_deployment (fst (start_step st site n nm t1 t2)) site = Some d' ∧
        steps d' =
          <[n := mkStepState n nm StepStatus.IN_PROGRESS (Some t1)
                   None None None]> (steps d).
Proof.
  intros Hd. rewrite get_start_step, Hd.
  destruct (start_step_on_known d n nm t1 t2) as (d' & -> & _ & Hst & _).
  rewrite decide_True by done. eauto.
Qed.

Lemma status_snd_start_step st site n nm t1 t2 :
  is_Some (get_deployment st site) →
  status (snd (start_step st site n nm t1 t2)) = StepStatus.IN_PROGRESS.
Proof.
  intros [d Hd]. unfold start_step. by rewrite snd_write_back, Hd.
Qed.

(** C8: on an existing deployment, [start_step(site_id, n, name)] called
    twice in succession returns a step with status [IN_PROGRESS] both
    times, the persisted step [n] is [IN_PROGRESS] after each call, and
    after the second call the steps mapping holds exactly one entry under
    [n]: its keys are those it had before the first call, and [n]. *)
Theorem start_step_twice st site n nm t1 t2 t3 t4 d :
  get_deployment st site = Some d →
  let r1 := start_step st site n nm t1 t2 in
  let r2 := start_step (fst r1) site n nm t3 t4 in
  status (snd r1) = StepStatus.IN_PROGRESS ∧
  status (snd r2) = StepStatus.IN_PROGRESS ∧
  step_status (fst r1) site n = Some StepStatus.IN_PROGRESS ∧
  step_status (fst r2) site n = Some StepStatus.IN_PROGRESS ∧
  ∃ d2, get_deployment (fst r2) site = Some d2 ∧
        length (entries_for n (steps d2)) = 1 ∧
        dom (steps d2) = {[n]} ∪ dom (steps d).
Proof.
  intros Hd r1 r2.
  destruct (get_start_step_same st site n nm t1 t2 d Hd) as (d1 & Hd1 & Hs1).
  destruct (get_start_step_same (fst r1) site n nm t3 t4 d1 Hd1) as (d2 & Hd2 & Hs2).
  split; [apply status_snd_start_step; by eexists|].
  split; [apply status_snd_start_step; by eexists|].
  split; [apply step_status_start_step; by eexists|].
  split; [apply step_status_start_step; by eexists|].
  exists d2. split; [done|]. split.
  - apply entries_for_length with (s := mkStepState n nm StepStatus.IN_PROGRESS
                                            (Some t3) None None None).
    rewrite Hs2. apply lookup_insert_eq.
  - rewrite Hs2, Hs1, !dom_insert_L. by rewrite (assoc_L (∪)), (idemp_L (∪)).
Qed.

Lemma start_step_twice_witness :
  ∃ d,
    get_deployment lab_started "S1" = Some d ∧
    let r1 := start_step lab_started "S1" 3 "x" "t5" "t6" in
    let r2 := start_step (fst r1) "S1" 3 "x" "t7" "t8" in
    status (snd r1) = StepStatus.IN_PROGRESS ∧
    status (snd r2) = StepStatus.IN_PROGRESS ∧
    step_status (fst r1) "S1" 3 = Some StepStatus.IN_PROGRESS ∧
    step_status (fst r2) "S1" 3 = Some StepStatus.IN_PROGRESS ∧
    ∃ d2, get_deployment (fst r2) "S1" = Some d2 ∧
          length (entries_for 3 (steps d2)) = 1 ∧
          dom (steps d2) = {[3%Z]} ∪ dom (steps d).
Proof.
  eexists. split; [vm_compute; reflexivity|].
  apply (start_step_twice lab_started "S1" 3 "x" "t5" "t6" "t7" "t8").
  vm_compute; reflexivity.
Defined.

(** ** Completing the steps of a deployment *)

Lemma complete_step_effect st site n res t1 t2 d :
  get_deployment st site = Some d →
  ∃ d1, get_deployment (fst (complete_step st site n res t1 t2)) site = Some d1 ∧
        total_steps d1 = total_steps d ∧
        (∀ k, is_Some (steps d !! k) → is_Some (steps d1 !! k)) ∧
        (∀ k, done_in d k → done_in d1 k) ∧
        (is_Some (steps d !! n) →
           done_in d1 n ∧ dstatus d1 = status_for_count d (steps d1)).
Proof.
  intros Hd. rewrite get_complete_step, Hd.
  destruct (steps d !! n) as [s|] eqn:Hs.
  - destruct (complete_step_on_known d n res t1 t2 s Hs)
      as (d1 & -> & Htot & Hst & Hds).
    rewrite decide_True by done. exists d1. split; [done|]. split; [done|].
    rewrite Hst. split; [|split].
    + intros k Hk. destruct (decide (n = k)) as [->|Hne].
      * rewrite lookup_insert_eq. by eexists.
      * by rewrite lookup_insert_ne.
    + intros k (s' & Hk & Hc). unfold done_in. rewrite Hst.
      destruct (decide (n = k)) as [->|Hne].
      * rewrite lookup_insert_eq. by eexists.
      * rewrite lookup_insert_ne by done. eauto.
    + intros _. split.
      * unfold done_in. rewrite Hst, lookup_insert_eq. by eexists.
      * by rewrite Hds, Hst.
  - rewrite complete_step_on_unknown by done. exists d.
    repeat split; try done. all: by intros [? ?].
Qed.

Lemma run_cons st c cs : run st (c :: cs) = run (call st c) cs.
Proof. reflexivity. Qed.

Lemma run_complete_calls site args : ∀ st d,
  get_deployment st site = Some d →
  (∀ n, n ∈ step_nums args → is_Some (steps d !! n)) →
  ∃ d1, get_deployment (run st (complete_calls site args)) site = Some d1 ∧
        total_steps d1 = total_steps d ∧
        (∀ k, is_Some (steps d !! k) → is_Some (steps d1 !! k)) ∧
        (∀ k, done_in d k → done_in d1 k) ∧
        (∀ n, n ∈ step_nums args → done_in d1 n) ∧
        (args ≠ [] → (total_steps d ≤ completed_count (steps d1))%Z →
           dstatus d1 = DeploymentStatus.COMPLETED).
Proof.
  induction args as [|[[[n res] t1] t2] args IH]; intros st d Hd Hknown.
  - exists d. repeat split; try done. intros n Hn. by apply elem_of_nil in Hn.
  - cbn [complete_calls List.map]. rewrite run_cons. cbn [call].
    destruct (complete_step_effect st site n res t1 t2 d Hd)
      as (d0 & Hd0 & Htot0 & Hkeep0 & Hdone0 & Hn0).
    destruct Hn0 as [Hn0 Hst0]; [apply Hknown; by left|].
    destruct (IH _ d0 Hd0) as (d1 & Hd1 & Htot1 & Hkeep1 & Hdone1 & Hall1 & Hfin1).
    { intros k Hk. apply Hkeep0, Hknown. by right. }
    exists d1. split; [exact Hd1|]. split; [congruence|].
    split; [auto|]. split; [auto|]. split.
    + intros k Hk. cbn [step_nums List.map] in Hk.
      apply elem_of_cons in Hk as [->|Hk]; [auto|]. by apply Hall1.
    + intros _ Hle. destruct args as [|a args].
      * cbn [complete_calls List.map run fold_left] in Hd1.
        assert (d1 = d0) as -> by congruence.
        rewrite Hst0. unfold status_for_count.
        by rewrite (proj2 (Z.leb_le _ _) Hle).
      * apply Hfin1; [done|]. by rewrite Htot0.
Qed.

Lemma complete_step_again st site n res t1 t2 d s :
  get_deployment st site = Some d →
  steps d !! n = Some s →
  status s = StepStatus.COMPLETED →
  deployment_status (fst (complete_step st site n res t1 t2)) site
    = Some (status_for_count d (steps d)).
Proof.
  intros Hd Hs Hc. unfold deployment_status. rewrite get_complete_step, Hd.
  destruct (complete_step_on_known d n res t1 t2 s Hs)
    as (d1 & -> & Htot & Hst & Hds).
  rewrite decide_True by done. simpl. rewrite Hds. unfold status_for_count.
  rewrite Hst, completed_count_insert, (completed_count_lookup _ _ _ Hs).
  by rewrite !completed_weight_1.
Qed.

(** The call that completes the last of [total_steps] steps completes
    the deployment. *)
Lemma complete_last_step st site d ns n res t1 t2 :
  get_deployment st site = Some d →
  NoDup ns →
  Z.of_nat (length ns) = total_steps d →
  n ∈ ns →
  is_Some (steps d !! n) →
  (∀ k, k ∈ ns → k ≠ n → done_in d k) →
  deployment_status (fst (complete_step st site n res t1 t2)) site
    = Some DeploymentStatus.COMPLETED.
Proof.
  intros Hd Hnd Hlen Hn Hsn Hothers.
  destruct (complete_step_effect st site n res t1 t2 d Hd)
    as (d1 & Hd1 & Htot & _ & Hdone & Hlast).
  destruct (Hlast Hsn) as [Hn1 Hst1].
  unfold deployment_status. rewrite Hd1. simpl. rewrite Hst1.
  unfold status_for_count. rewrite (proj2 (Z.leb_le _ _)); [done|].
  rewrite <-Hlen. apply completed_count_ge_keys; [done|].
  intros k Hk. destruct (decide (k = n)) as [->|Hne]; [done|].
  by apply Hdone, Hothers.
Qed.

(** ** Invariants of the persisted aggregates *)

Section StoreInvariant.
Variable P : DeploymentState → Prop.

Hypothesis P_create : ∀ site org nm now,
  P (mkDeploymentState site org nm DeploymentStatus.IN_PROGRESS ∅ None
                       default_total_steps now now).
Hypothesis P_start : ∀ d n nm t1 t2 d',
  P d → fst (start_step_on (Some d) n nm t1 t2) = Some d' → P d'.
Hypothesis P_complete : ∀ d n res t1 t2 d',
  P d → fst (complete_step_on (Some d) n res t1 t2) = Some d' → P d'.
Hypothesis P_fail : ∀ d n err t1 t2 d',
  P d → fst (fail_step_on (Some d) n err t1 t2) = Some d' → P d'.

Lemma store_all_call st c : store_all P st → store_all P (call st c).
Proof.
  intros Hst site d.
  destruct c as [site' org nm now|site' n' nm t1 t2|site' n' res t1 t2
                 |site' n' err t1 t2]; cbn [call].
  - rewrite get_create_deployment. destruct (client st); [|done].
    case_decide; [|by apply Hst]. intros [= <-]. apply P_create.
  - rewrite get_start_step.
    destruct (get_deployment st site') as [d0|] eqn:Hd0; [|by apply Hst].
    destruct (fst (start_step_on (Some d0) n' nm t1 t2)) as [d'|] eqn:Hon;
      [|by apply Hst].
    case_decide; [|by apply Hst]. intros [= <-]. eapply P_start; [|done].
    by eapply Hst.
  - rewrite get_complete_step.
    destruct (get_deployment st site') as [d0|] eqn:Hd0; [|by apply Hst].
    destruct (fst (complete_step_on (Some d0) n' res t1 t2)) as [d'|] eqn:Hon;
      [|by apply Hst].
    case_decide; [|by apply Hst]. intros [= <-]. eapply P_complete; [|done].
    by eapply Hst.
  - rewrite get_fail_step.
    destruct (get_deployment st site') as [d0|] eqn:Hd0; [|by apply Hst].
    destruct (fst (fail_step_on (Some d0) n' err t1 t2)) as [d'|] eqn:Hon;
      [|by apply Hst].
    case_decide; [|by apply Hst]. intros [= <-]. eapply P_fail; [|done].
    by eapply Hst.
Qed.

Lemma store_all_run cs : ∀ st, store_all P st → store_all P (run st cs).
Proof.
  induction cs as [|c cs IH]; intros st Hst; [done|].
  rewrite run_cons. by apply IH, store_all_call.
Qed.

Lemma store_all_reachable cs : store_all P (run empty_store cs).
Proof. apply store_all_run. intros site d. by vm_compute. Qed.
End StoreInvariant.

Lemma agg_inv_create site org nm now :
  agg_inv (mkDeploymentState site org nm DeploymentStatus.IN_PROGRESS ∅ None
                             default_total_steps now now).
Proof.
  split; simpl; [done|]. rewrite completed_count_empty.
  unfold default_total_steps. lia.
Qed.

Lemma agg_inv_start d n nm t1 t2 d' :
  agg_inv d → fst (start_step_on (Some d) n nm t1 t2) = Some d' → agg_inv d'.
Proof.
  intros _ Hon.
  destruct (start_step_on_known d n nm t1 t2) as (d1 & Hd1 & Htot & Hst & Hds).
  assert (d1 = d') as -> by congruence.
  split; [by rewrite Hds|]. intros Hle Hsize. exfalso.
  pose proof (completed_count_lt_size (steps d') n
    (mkStepState n nm StepStatus.IN_PROGRESS (Some t1) None None None)) as Hlt.
  rewrite Hst in Hlt at 1. rewrite lookup_insert_eq in Hlt.
  specialize (Hlt eq_refl). simpl in Hlt. specialize (Hlt ltac:(done)). lia.
Qed.

Lemma agg_inv_fail d n err t1 t2 d' :
  agg_inv d → fst (fail_step_on (Some d) n err t1 t2) = Some d' → agg_inv d'.
Proof.
  intros _ Hon. destruct (steps d !! n) as [s|] eqn:Hs;
    [|by rewrite fail_step_on_unknown in Hon].
  destruct (fail_step_on_known d n err t1 t2 s Hs) as (d1 & Hd1 & Htot & Hst & Hds).
  assert (d1 = d') as -> by congruence.
  split; [by rewrite Hds|]. intros Hle Hsize. exfalso.
  pose proof (completed_count_lt_size (steps d') n
    (set_completed_at (Some t1) (set_error (Some err)
       (set_status StepStatus.FAILED s)))) as Hlt.
  rewrite Hst in Hlt at 1. rewrite lookup_insert_eq in Hlt.
  specialize (Hlt eq_refl). simpl in Hlt. specialize (Hlt ltac:(done)). lia.
Qed.

Lemma agg_inv_complete d n res t1 t2 d' :
  agg_inv d → fst (complete_step_on (Some d) n res t1 t2) = Some d' → agg_inv d'.
Proof.
  intros [HK _] Hon. destruct (steps d !! n) as [s|] eqn:Hs;
    [|by rewrite complete_step_on_unknown in Hon].
  destruct (complete_step_on_known d n res t1 t2 s Hs)
    as (d1 & Hd1 & Htot & Hst & Hds).
  assert (d1 = d') as -> by congruence.
  unfold agg_inv. rewrite Htot. split.
  - rewrite Hds. destruct (Z.leb_spec (total_steps d) (completed_count (steps d')));
      [done|].
    intros Hc. specialize (HK Hc).
    pose proof (completed_count_insert_completed (steps d) n
      (set_result res (set_completed_at (Some t1)
         (set_status StepStatus.COMPLETED s))) s Hs eq_refl) as Hmono.
    rewrite <-Hst in Hmono. lia.
  - intros Hle _. rewrite Hds. by rewrite (proj2 (Z.leb_le _ _) Hle).
Qed.

Lemma agg_inv_reachable cs : store_all agg_inv (run empty_store cs).
Proof.
  apply store_all_reachable.
  - apply agg_inv_create.
  - apply agg_inv_start.
  - apply agg_inv_complete.
  - apply agg_inv_fail.
Qed.

(** ** C5: the idempotency guard *)

Lemma is_step_completed_status st site n :
  is_step_completed st site n
    = bool_decide (step_status st site n = Some StepStatus.COMPLETED).
Proof.
  unfold is_step_completed, step_status.
  destruct (get_deployment st site) as [d|]; [|done].
  destruct (steps d !! n) as [s|]; simpl; [|done].
  do 2 case_bool_decide; congruence.
Qed.

Lemma step_status_complete_step_unknown st site n res t1 t2 :
  step_status st site n = None →
  step_status (fst (complete_step st site n res t1 t2)) site n = None.
Proof.
  intros Hn. unfold complete_step.
  rewrite step_status_write_back by apply complete_step_on_Some.
  destruct (get_deployment st site) as [d|] eqn:Hd; [|done].
  assert (steps d !! n = None) as Hs.
  { unfold step_status in Hn. rewrite Hd in Hn.
    by destruct (steps d !! n). }
  by rewrite complete_step_on_unknown.
Qed.

Lemma step_status_fail_step_unknown st site n err t1 t2 :
  step_status st site n = None →
  step_status (fst (fail_step st site n err t1 t2)) site n = None.
Proof.
  intros Hn. unfold fail_step.
  rewrite step_status_write_back by apply fail_step_on_Some.
  destruct (get_deployment st site) as [d|] eqn:Hd; [|done].
  assert (steps d !! n = None) as Hs.
  { unfold step_status in Hn. rewrite Hd in Hn.
    by destruct (steps d !! n). }
  by rewrite fail_step_on_unknown.
Qed.

Lemma step_status_start_step_absent st site n nm t1 t2 :
  get_deployment st site = None →
  step_status (fst (start_step st site n nm t1 t2)) site n = None.
Proof.
  intros Hd. unfold start_step. rewrite Hd. simpl. unfold step_status.
  by rewrite Hd.
Qed.

Lemma step_status_create_same st site n org nm now :
  step_status (fst (create_deployment st site org nm now)) site n = None.
Proof.
  unfold step_status. rewrite get_create_deployment.
  destruct (client st); [|done]. by rewrite decide_True.
Qed.

(** A call other than [complete_step] on step [n] of [site] never makes
    that step [COMPLETED]. *)
Lemma not_completed_call st site n c :
  step_status st site n ≠ Some StepStatus.COMPLETED →
  completes site n c = false →
  step_status (call st c) site n ≠ Some StepStatus.COMPLETED.
Proof.
  intros Hv Hc.
  destruct c as [site' org nm now|site' n' nm t1 t2|site' n' res t1 t2
                 |site' n' err t1 t2]; cbn [call completes] in *.
  - destruct (decide (site' = site)) as [->|Hne].
    + by rewrite step_status_create_same.
    + by rewrite step_status_create_other.
  - destruct (decide (site' = site ∧ n' = n)) as [[-> ->]|Hne].
    + destruct (get_deployment st site) as [d|] eqn:Hd.
      * rewrite step_status_start_step; [done | by eexists].
      * by rewrite step_status_start_step_absent.
    + by rewrite step_status_start_step_other.
  - apply bool_decide_eq_false in Hc.
    by rewrite step_status_complete_step_other.
  - destruct (decide (site' = site ∧ n' = n)) as [[-> ->]|Hne].
    + destruct (step_status st site n) as [v|] eqn:Hst.
      * rewrite step_status_fail_step; [done | by rewrite Hst; eexists].
      * by rewrite step_status_fail_step_unknown.
    + by rewrite step_status_fail_step_other.
Qed.

Lemma not_completed_run cs : ∀ st site n,
  step_status st site n ≠ Some StepStatus.COMPLETED →
  forallb (λ c, negb (completes site n c)) cs = true →
  step_status (run st cs) site n ≠ Some StepStatus.COMPLETED.
Proof.
  induction cs as [|c cs IH]; intros st site n Hv Hcs; [done|].
  simpl in Hcs. apply andb_true_iff in Hcs as [Hc Hcs].
  rewrite run_cons. apply IH; [|done].
  apply not_completed_call; [done|]. by apply negb_true_iff.
Qed.

(** C5, as stated, fails: [complete_step] on a step that was never
    started writes nothing, and [is_step_completed] is still false right
    after it. *)
Lemma complete_unknown_step_guard_false :
  let st := fst (create_deployment empty_store "S1" "O1" "Lab-1" "t0") in
  is_step_completed (fst (complete_step st "S1" 1 (Some "{}") "t1" "t2")) "S1" 1
    = false.
Proof. by vm_compute. Qed.

(** C5, amended: in every state reached from an empty store by calls
    among which there is no [complete_step(site_id, n, ...)],
    [is_step_completed(site_id, n)] is false; and right after
    [complete_step(site_id, n, ...)] it is true when the deployment is
    persisted and holds step [n], and false when it does not. *)
Theorem is_step_completed_round_trip cs site n :
  forallb (λ c, negb (completes site n c)) cs = true →
  is_step_completed (run empty_store cs) site n = false ∧
  ∀ st res t1 t2,
    is_step_completed (fst (complete_step st site n res t1 t2)) site n
      = bool_decide (is_Some (step_status st site n)).
Proof.
  intros Hcs. split.
  - rewrite is_step_completed_status. apply bool_decide_eq_false_2.
    by apply not_completed_run.
  - intros st res t1 t2. rewrite is_step_completed_status.
    destruct (step_status st site n) as [v|] eqn:Hst.
    + rewrite step_status_complete_step by (rewrite Hst; by eexists).
      rewrite !bool_decide_eq_true_2; [done | by eexists | done].
    + rewrite step_status_complete_step_unknown by done.
      rewrite !bool_decide_eq_false_2; [done | by intros [? ?] | done].
Qed.

Lemma is_step_completed_round_trip_witness :
  let cs := CreateDeployment "S1" "O1" "Lab-1" "t0" :: starts "S1" [1%Z; 2%Z] in
  forallb (λ c, negb (completes "S1" 2 c)) cs = true ∧
  is_step_completed (run empty_store cs) "S1" 2 = false ∧
  is_step_completed
    (fst (complete_step (run empty_store cs) "S1" 2 None "t3" "t4")) "S1" 2
    = true.
Proof.
  intros cs. split; [reflexivity|].
  destruct (is_step_completed_round_trip cs "S1" 2 eq_refl) as [Hbefore Hafter].
  split; [exact Hbefore|].
  rewrite Hafter. by vm_compute.
Defined.

(** ** C6: the invariant of a step entity *)

(** Where the aggregate found under [site] after a call comes from. *)
Lemma get_call_inv st c site d' :
  get_deployment (call st c) site = Some d' →
  get_deployment st site = Some d' ∨
  (∃ org nm now,
     c = CreateDeployment site org nm now ∧
     d' = mkDeploymentState site org nm DeploymentStatus.IN_PROGRESS ∅ None
                            default_total_steps now now) ∨
  (∃ d n nm t1 t2,
     c = StartStep site n nm t1 t2 ∧ get_deployment st site = Some d ∧
     fst (start_step_on (Some d) n nm t1 t2) = Some d') ∨
  (∃ d n res t1 t2,
     c = CompleteStep site n res t1 t2 ∧ get_deployment st site = Some d ∧
     fst (complete_step_on (Some d) n res t1 t2) = Some d') ∨
  (∃ d n err t1 t2,
     c = FailStep site n err t1 t2 ∧ get_deployment st site = Some d ∧
     fst (fail_step_on (Some d) n err t1 t2) = Some d').
Proof.
  destruct c as [site' org nm now|site' n' nm t1 t2|site' n' res t1 t2
                 |site' n' err t1 t2]; cbn [call].
  - rewrite get_create_deployment. destruct (client st); [|done].
    case_decide as Hs; [|by left]. subst site'. intros [= <-].
    right; left. by eexists _, _, _.
  - rewrite get_start_step.
    destruct (get_deployment st site') as [d0|] eqn:Hd0; [|by left].
    destruct (fst (start_step_on (Some d0) n' nm t1 t2)) as [d1|] eqn:Hon;
      [|by left].
    case_decide as Hs; [|by left]. subst site'. intros [= <-].
    right; right; left. by eexists _, _, _, _, _.
  - rewrite get_complete_step.
    destruct (get_deployment st site') as [d0|] eqn:Hd0; [|by left].
    destruct (fst (complete_step_on (Some d0) n' res t1 t2)) as [d1|] eqn:Hon;
      [|by left].
    case_decide as Hs; [|by left]. subst site'. intros [= <-].
    right; right; right; left. by eexists _, _, _, _, _.
  - rewrite get_fail_step.
    destruct (get_deployment st site') as [d0|] eqn:Hd0; [|by left].
    destruct (fst (fail_step_on (Some d0) n' err t1 t2)) as [d1|] eqn:Hon;
      [|by left].
    case_decide as Hs; [|by left]. subst site'. intros [= <-].
    right; right; right; right. by eexists _, _, _, _, _.
Qed.

Lemma steps_all_insert (Q : StepState → Prop) d d' n x :
  steps_all Q d → steps d' = <[n := x]> (steps d) → Q x → steps_all Q d'.
Proof.
  intros Hd Hst Hx k s. rewrite Hst.
  destruct (decide (n = k)) as [->|Hne].
  - rewrite lookup_insert_eq. by intros [= <-].
  - rewrite lookup_insert_ne by done. apply Hd.
Qed.

Lemma step_inv_weak_create site org nm now :
  steps_all step_inv_weak
    (mkDeploymentState site org nm DeploymentStatus.IN_PROGRESS ∅ None
                       default_total_steps now now).
Proof. intros n s. simpl. by rewrite lookup_empty. Qed.

Lemma step_inv_started n nm t1 :
  step_inv (mkStepState n nm StepStatus.IN_PROGRESS (Some t1) None None None).
Proof. repeat split; simpl; by intros [? ?]. Qed.

Lemma step_inv_weaken s : step_inv s → step_inv_weak s.
Proof.
  intros (H1 & H2 & H3). repeat split; [done| |].
  - intros H. left. auto.
  - intros H. right. auto.
Qed.

Lemma step_inv_weak_start d n nm t1 t2 d' :
  steps_all step_inv_weak d →
  fst (start_step_on (Some d) n nm t1 t2) = Some d' →
  steps_all step_inv_weak d'.
Proof.
  intros Hd Hon.
  destruct (start_step_on_known d n nm t1 t2) as (d1 & Hd1 & _ & Hst & _).
  assert (d1 = d') as -> by congruence.
  eapply steps_all_insert; [done..|]. apply step_inv_weaken, step_inv_started.
Qed.

Lemma step_inv_weak_complete d n res t1 t2 d' :
  steps_all step_inv_weak d →
  fst (complete_step_on (Some d) n res t1 t2) = Some d' →
  steps_all step_inv_weak d'.
Proof.
  intros Hd Hon. destruct (steps d !! n) as [s|] eqn:Hs;
    [|by rewrite complete_step_on_unknown in Hon].
  destruct (complete_step_on_known d n res t1 t2 s Hs) as (d1 & Hd1 & _ & Hst & _).
  assert (d1 = d') as -> by congruence.
  eapply steps_all_insert; [done..|]. repeat split; intros _; by left.
Qed.

Lemma step_inv_weak_fail d n err t1 t2 d' :
  steps_all step_inv_weak d →
  fst (fail_step_on (Some d) n err t1 t2) = Some d' →
  steps_all step_inv_weak d'.
Proof.
  intros Hd Hon. destruct (steps d !! n) as [s|] eqn:Hs;
    [|by rewrite fail_step_on_unknown in Hon].
  destruct (fail_step_on_known d n err t1 t2 s Hs) as (d1 & Hd1 & _ & Hst & _).
  assert (d1 = d') as -> by congruence.
  eapply steps_all_insert; [done..|]. repeat split; intros _; by right.
Qed.

Lemma step_inv_weak_reachable cs :
  store_all (steps_all step_inv_weak) (run empty_store cs).
Proof.
  apply store_all_reachable.
  - apply step_inv_weak_create.
  - apply step_inv_weak_start.
  - apply step_inv_weak_complete.
  - apply step_inv_weak_fail.
Qed.

(** The invariant of section 3 survives every call that does not mix a
    result with a failure or an error with a completion. *)
Lemma step_inv_call st c :
  store_all (steps_all step_inv) st →
  mixes st c = false →
  store_all (steps_all step_inv) (call st c).
Proof.
  intros Hst Hmix site d' Hd'.
  apply get_call_inv in Hd' as
    [Hd'|[(org & nm & now & -> & ->)|[(d & n & nm & t1 & t2 & -> & Hd & Hon)
    |[(d & n & res & t1 & t2 & -> & Hd & Hon)
     |(d & n & err & t1 & t2 & -> & Hd & Hon)]]]].
  - by eapply Hst.
  - intros n s. simpl. by rewrite lookup_empty.
  - destruct (start_step_on_known d n nm t1 t2) as (d1 & Hd1 & _ & Hs1 & _).
    assert (d1 = d') as -> by congruence.
    eapply steps_all_insert; [by eapply Hst|done|]. apply step_inv_started.
  - destruct (steps d !! n) as [s|] eqn:Hs;
      [|by rewrite complete_step_on_unknown in Hon].
    destruct (complete_step_on_known d n res t1 t2 s Hs) as (d1 & Hd1 & _ & Hs1 & _).
    assert (d1 = d') as -> by congruence.
    eapply steps_all_insert; [by eapply Hst|done|].
    cbn [mixes] in Hmix. rewrite Hd, Hs in Hmix.
    apply bool_decide_eq_false in Hmix.
    repeat split; simpl; try done; intros _; by left.
  - destruct (steps d !! n) as [s|] eqn:Hs;
      [|by rewrite fail_step_on_unknown in Hon].
    destruct (fail_step_on_known d n err t1 t2 s Hs) as (d1 & Hd1 & _ & Hs1 & _).
    assert (d1 = d') as -> by congruence.
    eapply steps_all_insert; [by eapply Hst|done|].
    cbn [mixes] in Hmix. rewrite Hd, Hs in Hmix.
    apply bool_decide_eq_false in Hmix.
    repeat split; simpl; try done; intros _; by right.
Qed.

Lemma step_inv_run cs : ∀ st,
  store_all (steps_all step_inv) st →
  unmixed st cs = true →
  store_all (steps_all step_inv) (run st cs).
Proof.
  induction cs as [|c cs IH]; intros st Hst Hcs; [done|].
  simpl in Hcs. apply andb_true_iff in Hcs as [Hc Hcs].
  rewrite run_cons. apply IH; [|done].
  apply step_inv_call; [done|]. by apply negb_true_iff.
Qed.

(** C6, as stated, fails: [fail_step] on a step completed with a result
    sets the status to [FAILED] and leaves the result in place. *)
Lemma failed_step_keeps_result :
  ∃ d s,
    get_deployment (run empty_store completed_then_failed) "S1" = Some d ∧
    steps d !! 1%Z = Some s ∧
    result s = Some "{}" ∧
    status s = StepStatus.FAILED ∧
    ¬ step_inv s.
Proof.
  eexists _, _.
  split; [vm_compute; reflexivity|].
  split; [vm_compute; reflexivity|].
  split; [reflexivity|]. split; [reflexivity|].
  intros (_ & Hres & _). simpl in Hres.
  by specialize (Hres (ex_intro _ _ eq_refl)).
Qed.

(** C6, amended: for every step stored in an aggregate reachable from an
    empty store, [completed_at] set, [result] present, and [error]
    present each imply that the status is [COMPLETED] or [FAILED]. When
    no call of the run applies [complete_step] to a step that holds an
    error or [fail_step] to a step that holds a result, the invariant of
    section 3 holds as well: [result] implies [COMPLETED] and [error]
    implies [FAILED]. *)
Theorem step_invariant_reachable cs site d n s :
  get_deployment (run empty_store cs) site = Some d →
  steps d !! n = Some s →
  step_inv_weak s ∧ (unmixed empty_store cs = true → step_inv s).
Proof.
  intros Hd Hs. split.
  - by eapply step_inv_weak_reachable.
  - intros Hcs. eapply (step_inv_run cs empty_store); [|done..].
    intros site' d'. by vm_compute.
Qed.

Lemma step_invariant_reachable_witness :
  ∃ d s,
    get_deployment (run empty_store one_completed_one_failed) "S1" = Some d ∧
    steps d !! 2%Z = Some s ∧
    unmixed empty_store one_completed_one_failed = true ∧
    error s = Some "timeout" ∧
    step_inv s.
Proof.
  eexists _, _.
  split; [vm_compute; reflexivity|].
  split; [vm_compute; reflexivity|].
  split; [by vm_compute|]. split; [reflexivity|].
  eapply (step_invariant_reachable one_completed_one_failed "S1" _ 2).
  - vm_compute; reflexivity.
  - vm_compute; reflexivity.
  - by vm_compute.
Defined.

(** ** C7: two workers completing different steps *)

Lemma step_status_serial st site n1 n2 res1 res2 ta1 ta2 tb1 tb2 :
  is_Some (step_status st site n1) →
  is_Some (step_status st site n2) →
  n1 ≠ n2 →
  step_status (complete_step_serial st site n1 n2 res1 res2 ta1 ta2 tb1 tb2) site n1
    = Some StepStatus.COMPLETED ∧
  step_status (complete_step_serial st site n1 n2 res1 res2 ta1 ta2 tb1 tb2) site n2
    = Some StepStatus.COMPLETED.
Proof.
  intros H1 H2 Hne. unfold complete_step_serial. split.
  - rewrite step_status_complete_step_other by (intros [_ ?]; congruence).
    by apply step_status_complete_step.
  - apply step_status_complete_step.
    by rewrite step_status_complete_step_other by (intros [_ ?]; congruence).
Qed.

Lemma get_race st site d n1 n2 res1 res2 ta1 ta2 tb1 tb2 s2 :
  get_deployment st site = Some d →
  steps d !! n2 = Some s2 →
  ∃ d2,
    get_deployment
      (complete_step_race st site n1 n2 res1 res2 ta1 ta2 tb1 tb2) site = Some d2 ∧
    steps d2 =
      <[n2 := set_result res2
                (set_completed_at (Some tb1)
                   (set_status StepStatus.COMPLETED s2))]> (steps d).
Proof.
  intros Hd Hs2. unfold complete_step_race. cbn zeta. rewrite Hd.
  destruct (complete_step_on_known d n2 res2 tb1 tb2 s2 Hs2)
    as (d2 & Hon2 & _ & Hst2 & _).
  exists d2. split; [|done].
  rewrite get_write_back.
  - rewrite Hon2. by rewrite decide_True.
  - intros _. rewrite get_write_back.
    + destruct (fst (complete_step_on (Some d) n1 res1 ta1 ta2));
        [rewrite decide_True by done|]; by eexists.
    + intros _. by eexists.
Qed.

(** C7, as stated, fails: two workers read the aggregate of S1 with steps
    1 and 2 in progress, the first writes step 1 completed, the second
    writes step 2 completed over it; the persisted step 1 is still
    [IN_PROGRESS]. *)
Lemma concurrent_complete_loses_update :
  let st := complete_step_race lab_started "S1" 1 2 None None "t3" "t4" "t5" "t6" in
  step_status lab_started "S1" 1 = Some StepStatus.IN_PROGRESS ∧
  step_status lab_started "S1" 2 = Some StepStatus.IN_PROGRESS ∧
  step_status st "S1" 2 = Some StepStatus.COMPLETED ∧
  step_status st "S1" 1 = Some StepStatus.IN_PROGRESS ∧
  step_status st "S1" 1 ≠ Some StepStatus.COMPLETED.
Proof. repeat split; by vm_compute. Qed.

(** C7, amended: for two [complete_step] calls on different stored steps
    of one persisted aggregate, both updates are in the final aggregate
    when the second call reads after the first has written (no lock or
    version check makes it so; the code has none). When both calls read
    the same initial aggregate, the final aggregate holds the update of
    the call that writes last, and the step of the other call keeps the
    status it had initially. *)
Theorem complete_step_two_workers st site d n1 n2 res1 res2 ta1 ta2 tb1 tb2 :
  get_deployment st site = Some d →
  is_Some (steps d !! n1) →
  is_Some (steps d !! n2) →
  n1 ≠ n2 →
  let serial := complete_step_serial st site n1 n2 res1 res2 ta1 ta2 tb1 tb2 in
  let race := complete_step_race st site n1 n2 res1 res2 ta1 ta2 tb1 tb2 in
  (step_status serial site n1 = Some StepStatus.COMPLETED ∧
   step_status serial site n2 = Some StepStatus.COMPLETED) ∧
  (step_status race site n2 = Some StepStatus.COMPLETED ∧
   step_status race site n1 = step_status st site n1).
Proof.
  intros Hd [s1 Hs1] [s2 Hs2] Hne serial race. split.
  - apply step_status_serial; [| |done].
    + rewrite (step_status_intro st site n1 d s1) by done. by eexists.
    + rewrite (step_status_intro st site n2 d s2) by done. by eexists.
  - destruct (get_race st site d n1 n2 res1 res2 ta1 ta2 tb1 tb2 s2 Hd Hs2)
      as (d2 & Hd2 & Hst2).
    fold race in Hd2. unfold step_status. rewrite Hd2, Hd, Hst2. split.
    + by rewrite lookup_insert_eq.
    + by rewrite lookup_insert_ne.
Qed.

Lemma complete_step_two_workers_witness :
  let serial :=
    complete_step_serial lab_started "S1" 1 2 None None "t3" "t4" "t5" "t6" in
  step_status lab_started "S1" 1 = Some StepStatus.IN_PROGRESS ∧
  step_status serial "S1" 1 = Some StepStatus.COMPLETED ∧
  step_status serial "S1" 2 = Some StepStatus.COMPLETED.
Proof.
  intros serial. split; [by vm_compute|].
  eapply proj1,
    (complete_step_two_workers lab_started "S1" _ 1 2 None None "t3" "t4" "t5" "t6").
  - vm_compute; reflexivity.
  - vm_compute. by eexists.
  - vm_compute. by eexists.
  - done.
Defined.

(** ** C9: the subnets of a site *)

(** C9: the code breaks the claim. Zone 1 and zone 101 are both
    accepted, and the data subnet of site 5 in zone 1 is the management
    subnet of site 5 in zone 101; from zone 36 on, the second octet of
    the IoT subnet exceeds 255. *)
Theorem subnets_overlap_across_zones :
  ∃ a1 a2,
    calculate_site_subnets 1 5 = inr a1 ∧
    calculate_site_subnets 101 5 = inr a2 ∧
    data_subnet a1 = "10.101.5.0/24" ∧
    management_subnet a2 = "10.101.5.0/24" ∧
    (∃ a3, calculate_site_subnets 36 5 = inr a3 ∧
           iot_subnet a3 = "10.256.5.0/24").
Proof.
  eexists _, _. split; [reflexivity|]. split; [reflexivity|].
  split; [reflexivity|]. split; [reflexivity|].
  eexists. split; reflexivity.
Qed.

(** ** C10: listing the deployments *)

Lemma replace_from_no_occurrence (old new s : string) :
  occurs old s = false → replace_from old new 0 s = s.
Proof.
  induction s as [|c s IH]; intros Hocc; [done|].
  cbn [occurs] in Hocc. apply orb_false_iff in Hocc as [Hp Hs].
  cbn [replace_from]. rewrite Hp. f_equal. by apply IH.
Qed.

Lemma prefix_append (p s : string) : String.prefix p (p ++ s) = true.
Proof.
  induction p as [|a p IH]; simpl; [by destruct s|].
  by destruct (ascii_dec a a).
Qed.

Lemma str_replace_key (site : string) :
  occurs "deployment:" site = false →
  str_replace (_key site) "deployment:" "" = site.
Proof.
  intros Hocc. unfold str_replace, _key.
  pose proof (prefix_append "deployment:" site) as Hp.
  change ("deployment:" ++ site) with (String "d" ("eployment:" ++ site)) in *.
  cbn [replace_from]. rewrite Hp.
  transitivity (replace_from "deployment:" "" 0 site); [exact eq_refl|].
  by apply replace_from_no_occurrence.
Qed.

Lemma key_in_client_keys (c : RedisClient) (site : string) (d : DeploymentState) :
  c !! _key site = Some d → In (_key site) (client_keys c "deployment:").
Proof.
  intros Hc. unfold client_keys. apply filter_In. split.
  - apply in_map_iff. exists (_key site, d). split; [done|].
    apply list_elem_of_In. by apply elem_of_map_to_list.
  - apply prefix_append.
Qed.

(** A site id in which [deployment:] does not occur is listed once its
    deployment is persisted. *)
Lemma list_deployments_lists st site d :
  get_deployment st site = Some d →
  occurs "deployment:" site = false →
  In site (list_deployments st).
Proof.
  unfold get_deployment, list_deployments, client_get.
  destruct (client st) as [c|]; [|done]. intros Hd Hocc.
  apply in_map_iff. exists (_key site). split.
  - by apply str_replace_key.
  - by apply key_in_client_keys with d.
Qed.

(** C10: the code breaks the claim. [list_deployments] takes every
    occurrence of [deployment:] out of a key, not only the prefix that
    [_key] put in front: the deployment created for the site id
    [deployment:a] is listed as [a], and its own site id is not in the
    list. *)
Theorem list_deployments_strips_site_id :
  let st := fst (create_deployment empty_store "deployment:a" "O1" "Lab-1" "t0") in
  is_Some (get_deployment st "deployment:a") ∧
  list_deployments st = ["a"] ∧
  ¬ In "deployment:a" (list_deployments st).
Proof.
  split; [vm_compute; by eexists|]. split; [by vm_compute|].
  vm_compute. intros [H|[]]. discriminate H.
Qed.

(* ================================================================== *)
(** * Further properties of the state store *)

(** ** A store without a client *)

Lemma call_no_store c : call no_store c = no_store.
Proof. by destruct c. Qed.

(** X1: a store constructed without a client stays as it is under every
    sequence of calls: nothing is persisted, [get_deployment] returns
    [None], [is_step_completed] returns false and [list_deployments]
    returns the empty list. *)
Theorem no_store_is_inert cs site n :
  run no_store cs = no_store ∧
  get_deployment (run no_store cs) site = None ∧
  is_step_completed (run no_store cs) site n = false ∧
  list_deployments (run no_store cs) = [].
Proof.
  assert (run no_store cs = no_store) as ->; [|done].
  induction cs as [|c cs IH]; [done|].
  by rewrite run_cons, call_no_store.
Qed.

(** ** Creating a deployment *)

(** X2: with a client, [create_deployment] persists the aggregate it
    returns: [get_deployment] reads it back, [IN_PROGRESS], with no steps,
    no current step and the identifiers given; whatever was persisted for
    the site before is overwritten, so no step of it is completed any
    more. *)
Theorem create_then_get st site org nm now :
  is_Some (client st) →
  let r := create_deployment st site org nm now in
  get_deployment (fst r) site = Some (snd r) ∧
  site_id (snd r) = site ∧ org_id (snd r) = org ∧ site_name (snd r) = nm ∧
  dstatus (snd r) = DeploymentStatus.IN_PROGRESS ∧
  steps (snd r) = ∅ ∧
  current_step (snd r) = None ∧
  ∀ n, is_step_completed (fst r) site n = false.
Proof.
  intros [c Hc] r.
  assert (get_deployment (fst r) site = Some (snd r)) as Hget.
  { unfold r. rewrite get_create_deployment, Hc. by rewrite decide_True. }
  repeat split; [done|]. intros n. unfold is_step_completed.
  rewrite Hget. simpl. by rewrite lookup_empty.
Qed.

Lemma create_then_get_witness :
  is_Some (client lab_completed) ∧
  is_step_completed lab_completed "S1" 3 = true ∧
  is_step_completed
    (fst (create_deployment lab_completed "S1" "O2" "Lab-2" "t9")) "S1" 3 = false.
Proof.
  split; [vm_compute; by eexists|]. split; [by vm_compute|].
  apply (create_then_get lab_completed "S1" "O2" "Lab-2" "t9").
  vm_compute; by eexists.
Defined.

(** ** Sites are independent *)

(** X3: a call addressed to one site leaves the aggregate persisted for
    every other site exactly as it was. *)
Theorem call_other_site st c site :
  call_site c ≠ site →
  get_deployment (call st c) site = get_deployment st site.
Proof.
  intros Hne.
  destruct c as [site' org nm now|site' n' nm t1 t2|site' n' res t1 t2
                 |site' n' err t1 t2]; cbn [call call_site] in *.
  - unfold create_deployment. cbn [fst]. by apply get_persist_ne.
  - rewrite get_start_step. destruct (fst _); [by rewrite decide_False|done].
  - rewrite get_complete_step. destruct (fst _); [by rewrite decide_False|done].
  - rewrite get_fail_step. destruct (fst _); [by rewrite decide_False|done].
Qed.

Lemma call_other_site_witness :
  call_site (CreateDeployment "S2" "O1" "Lab-2" "t9") ≠ "S1" ∧
  get_deployment (call lab_completed (CreateDeployment "S2" "O1" "Lab-2" "t9")) "S1"
    = get_deployment lab_completed "S1" ∧
  is_Some (get_deployment lab_completed "S1").
Proof.
  split; [done|]. split.
  - by apply (call_other_site lab_completed
                (CreateDeployment "S2" "O1" "Lab-2" "t9") "S1").
  - vm_compute. by eexists.
Defined.

(** ** Transitions on what is not there *)

Lemma absent_after_call st c site :
  get_deployment st site = None →
  recreates site c = false →
  get_deployment (call st c) site = None.
Proof.
  intros Hd Hc. destruct (get_deployment (call st c) site) as [d'|] eqn:Hd';
    [|done].
  apply get_call_inv in Hd' as
    [Hd'|[(org & nm & now & -> & _)|[(d & n & nm & t1 & t2 & _ & Hd0 & _)
    |[(d & n & res & t1 & t2 & _ & Hd0 & _)
     |(d & n & err & t1 & t2 & _ & Hd0 & _)]]]]; try congruence.
  cbn in Hc. by rewrite bool_decide_eq_true_2 in Hc.
Qed.

(** X4: only [create_deployment] brings a deployment into existence: for
    a site without a persisted deployment, no sequence of calls without a
    [create_deployment] for that site persists anything for it;
    [get_deployment] still returns [None] and no step of it is
    completed, whatever [start_step] and [complete_step] returned
    meanwhile. *)
Theorem absent_stays_absent cs : ∀ st site,
  get_deployment st site = None →
  forallb (λ c, negb (recreates site c)) cs = true →
  get_deployment (run st cs) site = None ∧
  ∀ n, is_step_completed (run st cs) site n = false.
Proof.
  induction cs as [|c cs IH]; intros st site Hd Hcs.
  - cbn [run fold_left]. split; [done|]. intros n.
    unfold is_step_completed. by rewrite Hd.
  - cbn [forallb] in Hcs. apply andb_true_iff in Hcs as [Hc Hcs].
    rewrite run_cons. apply IH; [|done].
    apply absent_after_call; [done|]. by apply negb_true_iff.
Qed.

Lemma absent_stays_absent_witness :
  let cs := [StartStep "S9" 1 "claim" "t1" "t2";
             CompleteStep "S9" 1 (Some "{}") "t3" "t4";
             CreateDeployment "S2" "O1" "Lab-2" "t5"] in
  get_deployment lab_started "S9" = None ∧
  get_deployment (run lab_started cs) "S9" = None ∧
  is_Some (get_deployment (run lab_started cs) "S2").
Proof.
  intros cs. split; [by vm_compute|]. split.
  - apply (absent_stays_absent cs lab_started "S9"); by vm_compute.
  - vm_compute. by eexists.
Defined.

(** X5: [complete_step] and [fail_step] for a step that is not stored
    (the deployment is absent, or the step was never started) write
    nothing; they return a step named [unknown] that is [COMPLETED],
    respectively [FAILED] with the error given, and that is not
    persisted. Likewise [start_step] for a site without a persisted
    deployment writes nothing and returns a step that is [PENDING],
    without any timestamp. *)
Theorem finish_unknown_step st site n res err nm t1 t2 :
  step_status st site n = None →
  complete_step st site n res t1 t2
    = (st, mkStepState n "unknown" StepStatus.COMPLETED None None None None) ∧
  fail_step st site n err t1 t2
    = (st, mkStepState n "unknown" StepStatus.FAILED None None None (Some err)) ∧
  (get_deployment st site = None →
   start_step st site n nm t1 t2
     = (st, mkStepState n nm StepStatus.PENDING None None None None)).
Proof.
  intros Hn. unfold complete_step, fail_step, start_step, step_status in *.
  destruct (get_deployment st site) as [d|]; [|done].
  destruct (steps d !! n) as [s|] eqn:Hs; [done|].
  unfold complete_step_on, fail_step_on. by rewrite Hs.
Qed.

Lemma finish_unknown_step_witness :
  step_status lab_started "S1" 14 = None ∧
  complete_step lab_started "S1" 14 (Some "{}") "t3" "t4"
    = (lab_started,
       mkStepState 14 "unknown" StepStatus.COMPLETED None None None None).
Proof.
  split; [by vm_compute|].
  apply (finish_unknown_step lab_started "S1" 14 (Some "{}") "late" "x" "t3" "t4").
  by vm_compute.
Defined.

(** ** The aggregate each transition writes *)

Lemma start_step_on_eq d n nm t1 t2 :
  start_step_on (Some d) n nm t1 t2 =
    (Some (mkDeploymentState (site_id d) (org_id d) (site_name d)
             DeploymentStatus.IN_PROGRESS
             (<[n := mkStepState n nm StepStatus.IN_PROGRESS (Some t1)
                       None None None]> (steps d))
             (Some n) (total_steps d) (created_at d) t2),
     mkStepState n nm StepStatus.IN_PROGRESS (Some t1) None None None).
Proof. reflexivity. Qed.

Lemma complete_step_on_eq d n res t1 t2 s :
  steps d !! n = Some s →
  let s' := mkStepState (step_num s) (name s) StepStatus.COMPLETED
                        (started_at s) (Some t1) res (error s) in
  complete_step_on (Some d) n res t1 t2 =
    (Some (mkDeploymentState (site_id d) (org_id d) (site_name d)
             (status_for_count d (<[n := s']> (steps d)))
             (<[n := s']> (steps d))
             (current_step d) (total_steps d) (created_at d) t2),
     s').
Proof.
  intros Hs s'. unfold complete_step_on. rewrite Hs. cbn zeta.
  unfold status_for_count, set_updated_at, set_steps, set_result,
    set_completed_at, set_status, set_dstatus. simpl. fold s'.
  by destruct (_ <=? _)%Z.
Qed.

Lemma fail_step_on_eq d n err t1 t2 s :
  steps d !! n = Some s →
  let s' := mkStepState (step_num s) (name s) StepStatus.FAILED
                        (started_at s) (Some t1) (result s) (Some err) in
  fail_step_on (Some d) n err t1 t2 =
    (Some (mkDeploymentState (site_id d) (org_id d) (site_name d)
             DeploymentStatus.FAILED
             (<[n := s']> (steps d))
             (current_step d) (total_steps d) (created_at d) t2),
     s').
Proof. intros Hs s'. unfold fail_step_on. by rewrite Hs. Qed.

Lemma get_after_write st site d0 r d' :
  get_deployment st site = Some d0 →
  fst r = Some d' →
  get_deployment (fst (write_back st site r)) site = Some d'.
Proof.
  intros Hd0 Hr. rewrite get_write_back by (intros _; by eexists).
  rewrite Hr. by rewrite decide_True.
Qed.

(** ** Starting a step *)

(** X6: on a persisted deployment [start_step] always succeeds, whatever
    the aggregate status and whatever the step held before: the aggregate
    becomes [IN_PROGRESS] (also from [FAILED] or [COMPLETED]), its current
    step is [n], and step [n] is stored anew with status [IN_PROGRESS],
    the start time, and neither completion time, result nor error; the
    other steps are untouched, and the stored step is the one returned. *)
Theorem start_step_resets st site n nm t1 t2 d :
  get_deployment st site = Some d →
  let r := start_step st site n nm t1 t2 in
  ∃ d', get_deployment (fst r) site = Some d' ∧
        dstatus d' = DeploymentStatus.IN_PROGRESS ∧
        current_step d' = Some n ∧
        updated_at d' = t2 ∧
        steps d' !! n = Some (snd r) ∧
        snd r = mkStepState n nm StepStatus.IN_PROGRESS (Some t1) None None None ∧
        ∀ k, k ≠ n → steps d' !! k = steps d !! k.
Proof.
  intros Hd r. unfold r, start_step. rewrite Hd, snd_write_back.
  rewrite start_step_on_eq. eexists. split.
  - by apply get_after_write with d.
  - cbn. repeat split; [by rewrite lookup_insert_eq|].
    intros k Hk. by rewrite lookup_insert_ne.
Qed.

Lemma start_step_resets_witness :
  let st := run empty_store completed_then_failed in
  deployment_status st "S1" = Some DeploymentStatus.FAILED ∧
  ∃ d d',
    get_deployment st "S1" = Some d ∧
    get_deployment (fst (start_step st "S1" 1 "retry" "t7" "t8")) "S1" = Some d' ∧
    dstatus d' = DeploymentStatus.IN_PROGRESS ∧
    steps d' !! 1%Z
      = Some (mkStepState 1 "retry" StepStatus.IN_PROGRESS (Some "t7")
                None None None).
Proof.
  intros st. split; [by vm_compute|].
  eexists. 
  destruct (start_step_resets st "S1" 1 "retry" "t7" "t8" _
              ltac:(vm_compute; reflexivity))
    as (d' & Hd' & Hst & _ & _ & Hs & Hr & _).
  exists d'. split; [vm_compute; reflexivity|]. split; [exact Hd'|].
  split; [exact Hst|]. by rewrite Hs, Hr.
Defined.

(** ** What no transition takes away *)

Lemma start_step_on_keeps d n nm t1 t2 d' :
  fst (start_step_on (Some d) n nm t1 t2) = Some d' →
  dom (steps d) ⊆ dom (steps d') ∧
  site_id d' = site_id d ∧ org_id d' = org_id d ∧ site_name d' = site_name d ∧
  total_steps d' = total_steps d ∧ created_at d' = created_at d.
Proof.
  rewrite start_step_on_eq. intros [= <-]. cbn. repeat split.
  rewrite dom_insert_L. set_solver.
Qed.

Lemma complete_step_on_keeps d n res t1 t2 d' :
  fst (complete_step_on (Some d) n res t1 t2) = Some d' →
  dom (steps d) ⊆ dom (steps d') ∧
  site_id d' = site_id d ∧ org_id d' = org_id d ∧ site_name d' = site_name d ∧
  total_steps d' = total_steps d ∧ created_at d' = created_at d.
Proof.
  destruct (steps d !! n) as [s|] eqn:Hs;
    [|by rewrite complete_step_on_unknown].
  rewrite (complete_step_on_eq d n res t1 t2 s Hs). intros [= <-]. cbn.
  repeat split. rewrite dom_insert_L. set_solver.
Qed.

Lemma fail_step_on_keeps d n err t1 t2 d' :
  fst (fail_step_on (Some d) n err t1 t2) = Some d' →
  dom (steps d) ⊆ dom (steps d') ∧
  site_id d' = site_id d ∧ org_id d' = org_id d ∧ site_name d' = site_name d ∧
  total_steps d' = total_steps d ∧ created_at d' = created_at d.
Proof.
  destruct (steps d !! n) as [s|] eqn:Hs;
    [|by rewrite fail_step_on_unknown].
  rewrite (fail_step_on_eq d n err t1 t2 s Hs). intros [= <-]. cbn.
  repeat split. rewrite dom_insert_L. set_solver.
Qed.

(** X7: unless the deployment of the site is created anew, no call takes
    a step out of a persisted aggregate or changes its site id,
    organisation, site name, total number of steps or creation time: the
    deployment is still persisted after the call, with at least the step
    numbers it had. *)
Theorem call_keeps_steps st c site d :
  get_deployment st site = Some d →
  recreates site c = false →
  ∃ d', get_deployment (call st c) site = Some d' ∧
        dom (steps d) ⊆ dom (steps d') ∧
        site_id d' = site_id d ∧ org_id d' = org_id d ∧
        site_name d' = site_name d ∧
        total_steps d' = total_steps d ∧ created_at d' = created_at d.
Proof.
  intros Hd Hc.
  assert (∃ d', get_deployment st site = Some d' ∧
            dom (steps d) ⊆ dom (steps d') ∧
            site_id d' = site_id d ∧ org_id d' = org_id d ∧
            site_name d' = site_name d ∧
            total_steps d' = total_steps d ∧ created_at d' = created_at d)
    as Hsame by (exists d; by rewrite Hd).
  destruct c as [site' org nm now|site' n' nm t1 t2|site' n' res t1 t2
                 |site' n' err t1 t2]; cbn [call recreates] in *.
  - apply bool_decide_eq_false in Hc. unfold create_deployment. cbn [fst].
    by rewrite get_persist_ne.
  - rewrite get_start_step.
    destruct (fst (start_step_on (get_deployment st site') n' nm t1 t2))
      as [d'|] eqn:Hon; [|done].
    case_decide as Hs; [|done]. subst site'. rewrite Hd in Hon.
    exists d'. split; [done|]. by eapply start_step_on_keeps.
  - rewrite get_complete_step.
    destruct (fst (complete_step_on (get_deployment st site') n' res t1 t2))
      as [d'|] eqn:Hon; [|done].
    case_decide as Hs; [|done]. subst site'. rewrite Hd in Hon.
    exists d'. split; [done|]. by eapply complete_step_on_keeps.
  - rewrite get_fail_step.
    destruct (fst (fail_step_on (get_deployment st site') n' err t1 t2))
      as [d'|] eqn:Hon; [|done].
    case_decide as Hs; [|done]. subst site'. rewrite Hd in Hon.
    exists d'. split; [done|]. by eapply fail_step_on_keeps.
Qed.

Lemma call_keeps_steps_witness :
  let c := FailStep "S1" 3 "timeout" "t5" "t6" in
  ∃ d d',
    get_deployment lab_completed "S1" = Some d ∧
    recreates "S1" c = false ∧
    get_deployment (call lab_completed c) "S1" = Some d' ∧
    dom (steps d) ⊆ dom (steps d') ∧
    size (steps d) = 13.
Proof.
  intros c. eexists.
  destruct (call_keeps_steps lab_completed c "S1" _
              ltac:(vm_compute; reflexivity) eq_refl)
    as (d' & Hd' & Hdom & _).
  exists d'. split; [vm_compute; reflexivity|]. split; [reflexivity|].
  split; [exact Hd'|]. split; [exact Hdom|]. by vm_compute.
Defined.

(** ** The shape of every persisted aggregate *)

Lemma agg_wf_create site org nm now :
  agg_wf site
    (mkDeploymentState site org nm DeploymentStatus.IN_PROGRESS ∅ None
                       default_total_steps now now).
Proof.
  repeat split; cbn; done.
Qed.

Lemma step_wf_started n nm t1 :
  step_wf n (mkStepState n nm StepStatus.IN_PROGRESS (Some t1) None None None).
Proof. repeat split; cbn; done. Qed.

Lemma step_wf_finished n s v t1 res err :
  step_wf n s → v = StepStatus.COMPLETED ∨ v = StepStatus.FAILED →
  step_wf n (mkStepState (step_num s) (name s) v (started_at s) (Some t1) res err).
Proof.
  intros (Hn & Hst & _ & _) Hv. repeat split; cbn; try done.
  - by destruct Hv as [-> | ->].
  - by destruct Hv as [-> | ->].
Qed.

Lemma agg_wf_insert site d n x (v : DeploymentStatus.t) (cur : option Z) t2 :
  agg_wf site d →
  step_wf n x →
  (cur = Some n ∨ (cur = current_step d ∧ is_Some (steps d !! n))) →
  agg_wf site
    (mkDeploymentState (site_id d) (org_id d) (site_name d) v
       (<[n := x]> (steps d)) cur (total_steps d) (created_at d) t2).
Proof.
  intros (Hsite & Htot & Hsteps & Hnone & Hcur) Hx Hc.
  split; [done|]. split; [done|]. cbn. split; [|split].
  - intros k s. destruct (decide (n = k)) as [->|Hne].
    + rewrite lookup_insert_eq. by intros [= <-].
    + rewrite lookup_insert_ne by done. apply Hsteps.
  - split.
    + intros ->. destruct Hc as [[=]|[Hc [s Hs]]].
      symmetry in Hc. apply Hnone in Hc. by rewrite Hc, lookup_empty in Hs.
    + intros He. by apply insert_non_empty in He.
  - intros k ->. destruct (decide (n = k)) as [->|Hne].
    + rewrite lookup_insert_eq. by eexists.
    + rewrite lookup_insert_ne by done. apply Hcur.
      destruct Hc as [[= ?]|[Hc _]]; [done|]. by symmetry.
Qed.

Lemma agg_wf_call st c :
  (∀ site d, get_deployment st site = Some d → agg_wf site d) →
  ∀ site d, get_deployment (call st c) site = Some d → agg_wf site d.
Proof.
  intros Hst site d' Hd'.
  apply get_call_inv in Hd' as
    [Hd'|[(org & nm & now & -> & ->)|[(d & n & nm & t1 & t2 & -> & Hd & Hon)
    |[(d & n & res & t1 & t2 & -> & Hd & Hon)
     |(d & n & err & t1 & t2 & -> & Hd & Hon)]]]].
  - by apply Hst.
  - apply agg_wf_create.
  - rewrite start_step_on_eq in Hon. injection Hon as <-.
    apply agg_wf_insert; [by apply Hst|apply step_wf_started|by left].
  - destruct (steps d !! n) as [s|] eqn:Hs;
      [|by rewrite complete_step_on_unknown in Hon].
    rewrite (complete_step_on_eq d n res t1 t2 s Hs) in Hon. injection Hon as <-.
    pose proof (Hst site d Hd) as Hwf.
    apply agg_wf_insert; [done| |right; split; [done|by eexists]].
    apply step_wf_finished; [|by left].
    destruct Hwf as (_ & _ & Hsteps & _). by apply Hsteps.
  - destruct (steps d !! n) as [s|] eqn:Hs;
      [|by rewrite fail_step_on_unknown in Hon].
    rewrite (fail_step_on_eq d n err t1 t2 s Hs) in Hon. injection Hon as <-.
    pose proof (Hst site d Hd) as Hwf.
    apply agg_wf_insert; [done| |right; split; [done|by eexists]].
    apply step_wf_finished; [|by right].
    destruct Hwf as (_ & _ & Hsteps & _). by apply Hsteps.
Qed.

Lemma agg_wf_run cs : ∀ st,
  (∀ site d, get_deployment st site = Some d → agg_wf site d) →
  ∀ site d, get_deployment (run st cs) site = Some d → agg_wf site d.
Proof.
  induction cs as [|c cs IH]; intros st Hst; [done|].
  rewrite run_cons. by apply IH, agg_wf_call.
Qed.

(** X8: every aggregate reachable from an empty store is persisted under
    the key of its own site id and has 13 total steps; every step it
    holds is stored under its own step number, has a start time, is never
    [PENDING], and is [IN_PROGRESS] exactly when it has no completion
    time; the current step is unset exactly when there are no steps and
    otherwise names a stored step. *)
Theorem reachable_aggregate_shape cs site d :
  get_deployment (run empty_store cs) site = Some d →
  site_id d = site ∧
  total_steps d = 13%Z ∧
  (∀ n s, steps d !! n = Some s →
     step_num s = n ∧ is_Some (started_at s) ∧
     status s ≠ StepStatus.PENDING ∧
     (status s = StepStatus.IN_PROGRESS ↔ completed_at s = None)) ∧
  (current_step d = None ↔ steps d = ∅) ∧
  (∀ n, current_step d = Some n → is_Some (steps d !! n)).
Proof.
  intros Hd.
  assert (agg_wf site d) as Hwf.
  { apply (agg_wf_run cs empty_store); [|done].
    intros site' d'. by vm_compute. }
  exact Hwf.
Qed.

Lemma reachable_aggregate_shape_witness :
  ∃ d,
    get_deployment (run empty_store one_completed_one_failed) "S1" = Some d ∧
    site_id d = "S1" ∧
    current_step d = Some 2%Z ∧
    is_Some (steps d !! 2%Z).
Proof.
  eexists. split; [vm_compute; reflexivity|].
  destruct (reachable_aggregate_shape one_completed_one_failed "S1" _
              ltac:(vm_compute; reflexivity))
    as (Hsite & _ & _ & _ & Hcur).
  split; [exact Hsite|]. split; [reflexivity|]. by apply Hcur.
Defined.

(** ** What a transition returns *)

(** X9: whenever step [n] of the site is stored after [start_step],
    [complete_step] or [fail_step] was called for it, the stored step has
    the step number, name, status, timestamps and error of the step the
    call returned. The result payload is left out of the comparison: the
    call returns the dictionary it was given and the store holds its
    JSON image. (When the step is not stored, the returned step was not
    persisted.) *)
Theorem returned_step_is_stored st c site n d' s' :
  call_site c = site →
  call_step c = Some n →
  get_deployment (call st c) site = Some d' →
  steps d' !! n = Some s' →
  ∃ r, call_result st c = Some r ∧ set_result None r = set_result None s'.
Proof.
  intros Hsite Hn Hd' Hs'. exists s'. split; [|done].
  destruct c as [site' org nm now|site' n' nm t1 t2|site' n' res t1 t2
                 |site' n' err t1 t2];
    cbn [call call_site call_step call_result] in *; [done|..];
    injection Hn as ->; subst site'; f_equal.
  - unfold start_step in *. rewrite snd_write_back.
    rewrite get_write_back in Hd' by apply start_step_on_Some.
    destruct (get_deployment st site) as [d|] eqn:Hd; [|done].
    rewrite start_step_on_eq in *. cbn [fst snd] in *.
    rewrite decide_True in Hd' by done. injection Hd' as <-.
    cbn in Hs'. rewrite lookup_insert_eq in Hs'. congruence.
  - unfold complete_step in *. rewrite snd_write_back.
    rewrite get_write_back in Hd' by apply complete_step_on_Some.
    destruct (get_deployment st site) as [d|] eqn:Hd; [|done].
    destruct (steps d !! n) as [s|] eqn:Hs.
    + rewrite (complete_step_on_eq d n res t1 t2 s Hs) in *. cbn [fst snd] in *.
      rewrite decide_True in Hd' by done. injection Hd' as <-.
      cbn in Hs'. rewrite lookup_insert_eq in Hs'. congruence.
    + rewrite complete_step_on_unknown in Hd' by done. congruence.
  - unfold fail_step in *. rewrite snd_write_back.
    rewrite get_write_back in Hd' by apply fail_step_on_Some.
    destruct (get_deployment st site) as [d|] eqn:Hd; [|done].
    destruct (steps d !! n) as [s|] eqn:Hs.
    + rewrite (fail_step_on_eq d n err t1 t2 s Hs) in *. cbn [fst snd] in *.
      rewrite decide_True in Hd' by done. injection Hd' as <-.
      cbn in Hs'. rewrite lookup_insert_eq in Hs'. congruence.
    + rewrite fail_step_on_unknown in Hd' by done. congruence.
Qed.

Lemma returned_step_is_stored_witness :
  let c := CompleteStep "S1" 3 (Some "{}") "t3" "t4" in
  ∃ d' s',
    get_deployment (call lab_started c) "S1" = Some d' ∧
    steps d' !! 3%Z = Some s' ∧
    status s' = StepStatus.COMPLETED ∧
    ∃ r, call_result lab_started c = Some r ∧
         set_result None r = set_result None s'.
Proof.
  intros c. eexists _, _.
  split; [vm_compute; reflexivity|]. split; [vm_compute; reflexivity|].
  split; [reflexivity|].
  eapply (returned_step_is_stored lab_started c "S1" 3).
  - reflexivity.
  - reflexivity.
  - vm_compute; reflexivity.
  - vm_compute; reflexivity.
Defined.

(** ** Repeating a call *)

Lemma persist_persist st site d1 d2 :
  persist (persist st site d1) site d2 = persist st site d2.
Proof.
  unfold persist, client_set. destruct (client st) as [c|] eqn:Hc; simpl.
  - by rewrite insert_insert_eq.
  - by rewrite Hc.
Qed.

Lemma write_back_idem st site
    (f : option DeploymentState → option DeploymentState * StepState) :
  (∀ d d1, fst (f (Some d)) = Some d1 → fst (f (Some d1)) = Some d1) →
  fst (f None) = None →
  let op := λ st, fst (write_back st site (f (get_deployment st site))) in
  op (op st) = op st.
Proof.
  intros Hidem Hnone op.
  destruct (get_deployment st site) as [d|] eqn:Hd.
  - destruct (fst (f (Some d))) as [d1|] eqn:H1.
    + assert (op st = persist st site d1) as Hop
        by (unfold op, write_back; by rewrite Hd, H1).
      rewrite Hop. unfold op. rewrite (get_persist_eq st site d d1 Hd).
      unfold write_back. rewrite (Hidem d d1 H1). cbn [fst].
      apply persist_persist.
    + assert (op st = st) as Hop
        by (unfold op, write_back; by rewrite Hd, H1).
      by rewrite !Hop.
  - assert (op st = st) as Hop
      by (unfold op, write_back; by rewrite Hd, Hnone).
    by rewrite !Hop.
Qed.

Lemma status_for_count_idem d m v t :
  status_for_count
    (mkDeploymentState (site_id d) (org_id d) (site_name d)
       (status_for_count d m) m v (total_steps d) (created_at d) t) m
    = status_for_count d m.
Proof. unfold status_for_count. cbn. by destruct (_ <=? _)%Z. Qed.

Lemma start_step_on_idem n nm t1 t2 d d1 :
  fst (start_step_on (Some d) n nm t1 t2) = Some d1 →
  fst (start_step_on (Some d1) n nm t1 t2) = Some d1.
Proof.
  rewrite !start_step_on_eq. intros [= <-]. cbn. by rewrite insert_insert_eq.
Qed.

Lemma complete_step_on_idem n res t1 t2 d d1 :
  fst (complete_step_on (Some d) n res t1 t2) = Some d1 →
  fst (complete_step_on (Some d1) n res t1 t2) = Some d1.
Proof.
  destruct (steps d !! n) as [s|] eqn:Hs;
    [|by rewrite complete_step_on_unknown].
  rewrite (complete_step_on_eq d n res t1 t2 s Hs). intros [= <-].
  erewrite complete_step_on_eq by (cbn; apply lookup_insert_eq).
  cbn. rewrite insert_insert_eq. do 2 f_equal.
  apply (status_for_count_idem d).
Qed.

Lemma fail_step_on_idem n err t1 t2 d d1 :
  fst (fail_step_on (Some d) n err t1 t2) = Some d1 →
  fst (fail_step_on (Some d1) n err t1 t2) = Some d1.
Proof.
  destruct (steps d !! n) as [s|] eqn:Hs;
    [|by rewrite fail_step_on_unknown].
  rewrite (fail_step_on_eq d n err t1 t2 s Hs). intros [= <-].
  erewrite fail_step_on_eq by (cbn; apply lookup_insert_eq).
  cbn. by rewrite insert_insert_eq.
Qed.

(** X10: every call is idempotent: made a second time with the same
    arguments and the same clock readings, it leaves the store exactly as
    the first call left it. *)
Theorem call_idempotent st c : call (call st c) c = call st c.
Proof.
  destruct c as [site org nm now|site n nm t1 t2|site n res t1 t2
                 |site n err t1 t2]; cbn [call].
  - unfold create_deployment. cbn [fst]. apply persist_persist.
  - apply (write_back_idem st site (λ o, start_step_on o n nm t1 t2)); [|done].
    intros d d1. apply start_step_on_idem.
  - apply (write_back_idem st site (λ o, complete_step_on o n res t1 t2));
      [|done].
    intros d d1. apply complete_step_on_idem.
  - apply (write_back_idem st site (λ o, fail_step_on o n err t1 t2)); [|done].
    intros d d1. apply fail_step_on_idem.
Qed.

Lemma completed_count_insert_status (m : gmap Z StepState) (n : Z) (s1 s2 : StepState) :
  status s1 = status s2 →
  completed_count (<[n := s2]> m) = completed_count (<[n := s1]> m).
Proof.
  intros Hst. rewrite !completed_count_insert.
  unfold completed_weight, is_completed. by rewrite Hst.
Qed.

Lemma start_step_on_retimed n nm t1 t2 t1' t2' d d1 :
  fst (start_step_on (Some d) n nm t1 t2) = Some d1 →
  ∃ d2, fst (start_step_on (Some d1) n nm t1' t2') = Some d2 ∧
        untimed d2 = untimed d1.
Proof.
  rewrite !start_step_on_eq. intros [= <-]. eexists. split; [reflexivity|].
  unfold untimed. cbn. by rewrite !fmap_insert, insert_insert_eq.
Qed.

Lemma complete_step_on_retimed n res t1 t2 t1' t2' d d1 :
  fst (complete_step_on (Some d) n res t1 t2) = Some d1 →
  ∃ d2, fst (complete_step_on (Some d1) n res t1' t2') = Some d2 ∧
        untimed d2 = untimed d1.
Proof.
  destruct (steps d !! n) as [s|] eqn:Hs;
    [|by rewrite complete_step_on_unknown].
  rewrite (complete_step_on_eq d n res t1 t2 s Hs). intros [= <-].
  erewrite complete_step_on_eq by (cbn; apply lookup_insert_eq).
  eexists. split; [reflexivity|]. unfold untimed. cbn.
  rewrite !fmap_insert, !insert_insert_eq. f_equal.
  unfold status_for_count. cbn.
  rewrite (completed_count_insert_status (steps d) n
             (mkStepState (step_num s) (name s) StepStatus.COMPLETED
                (started_at s) (Some t1) res (error s))
             (mkStepState (step_num s) (name s) StepStatus.COMPLETED
                (started_at s) (Some t1') res (error s))) by done.
  by destruct (_ <=? _)%Z.
Qed.

Lemma fail_step_on_retimed n err t1 t2 t1' t2' d d1 :
  fst (fail_step_on (Some d) n err t1 t2) = Some d1 →
  ∃ d2, fst (fail_step_on (Some d1) n err t1' t2') = Some d2 ∧
        untimed d2 = untimed d1.
Proof.
  destruct (steps d !! n) as [s|] eqn:Hs;
    [|by rewrite fail_step_on_unknown].
  rewrite (fail_step_on_eq d n err t1 t2 s Hs). intros [= <-].
  erewrite fail_step_on_eq by (cbn; apply lookup_insert_eq).
  eexists. split; [reflexivity|]. unfold untimed. cbn.
  by rewrite !fmap_insert, !insert_insert_eq.
Qed.

(** The second of two writes that agree up to timestamps changes nothing
    but timestamps. *)
Lemma write_back_retimed st site site'
    (f g : option DeploymentState → option DeploymentState * StepState) :
  (∀ d d1, fst (f (Some d)) = Some d1 →
     ∃ d2, fst (g (Some d1)) = Some d2 ∧ untimed d2 = untimed d1) →
  (∀ d, fst (f (Some d)) = None → fst (g (Some d)) = None) →
  fst (f None) = None → fst (g None) = None →
  let st1 := fst (write_back st site (f (get_deployment st site))) in
  let st2 := fst (write_back st1 site (g (get_deployment st1 site))) in
  untimed <$> get_deployment st2 site' = untimed <$> get_deployment st1 site'.
Proof.
  intros Hfg Hnone Hf Hg st1 st2.
  destruct (get_deployment st site) as [d|] eqn:Hd.
  - destruct (fst (f (Some d))) as [d1|] eqn:H1.
    + assert (get_deployment st1 site = Some d1) as Hd1.
      { unfold st1. rewrite ?Hd. by apply get_after_write with d. }
      destruct (Hfg d d1 H1) as (d2 & H2 & Heq).
      unfold st2. rewrite Hd1.
      rewrite get_write_back by (intros _; by eexists).
      rewrite H2. case_decide as Hs; [|done]. subst site'.
      rewrite Hd1. cbn. by rewrite Heq.
    + assert (st1 = st) as Hst1
        by (unfold st1, write_back; by rewrite ?Hd, H1).
      unfold st2. rewrite Hst1, Hd. unfold write_back.
      by rewrite (Hnone d H1).
  - assert (st1 = st) as Hst1
      by (unfold st1, write_back; by rewrite ?Hd, Hf).
    unfold st2. rewrite Hst1, Hd. unfold write_back. by rewrite Hg.
Qed.

(** X11: a call repeated with the same arguments at a later time changes
    nothing but timestamps: after the second call every persisted
    aggregate has the status, the steps with their statuses, results and
    errors, and the current step it had after the first. *)
Theorem call_repeated st c c' site :
  same_call c c' = true →
  untimed <$> get_deployment (call (call st c) c') site
    = untimed <$> get_deployment (call st c) site.
Proof.
  intros Hcc.
  destruct c as [s org nm now|s n nm t1 t2|s n res t1 t2|s n err t1 t2],
           c' as [s' org' nm' now'|s' n' nm' t1' t2'|s' n' res' t1' t2'
                  |s' n' err' t1' t2'];
    cbn [same_call] in Hcc; try done;
    apply bool_decide_eq_true in Hcc as (<- & <- & <-); cbn [call].
  - rewrite !get_create_deployment. cbn [create_deployment fst snd].
    unfold persist. destruct (client st) as [c|] eqn:Hc; cbn [client]; [|by rewrite Hc].
    by case_decide.
  - apply (write_back_retimed st s site
             (λ o, start_step_on o n nm t1 t2)
             (λ o, start_step_on o n nm t1' t2')); [|done..].
    intros d d1. apply start_step_on_retimed.
  - apply (write_back_retimed st s site
             (λ o, complete_step_on o n res t1 t2)
             (λ o, complete_step_on o n res t1' t2')); [| |done..].
    + intros d d1. apply complete_step_on_retimed.
    + intros d. destruct (steps d !! n) as [x|] eqn:Hx.
      * by rewrite (complete_step_on_eq d n res t1 t2 x Hx).
      * intros _. by apply complete_step_on_unknown.
  - apply (write_back_retimed st s site
             (λ o, fail_step_on o n err t1 t2)
             (λ o, fail_step_on o n err t1' t2')); [| |done..].
    + intros d d1. apply fail_step_on_retimed.
    + intros d. destruct (steps d !! n) as [x|] eqn:Hx.
      * by rewrite (fail_step_on_eq d n err t1 t2 x Hx).
      * intros _. by apply fail_step_on_unknown.
Qed.

Lemma call_repeated_witness :
  let c := CompleteStep "S1" 3 (Some "{}") "t3" "t4" in
  let c' := CompleteStep "S1" 3 (Some "{}") "t5" "t6" in
  same_call c c' = true ∧
  get_deployment (call (call lab_started c) c') "S1"
    ≠ get_deployment (call lab_started c) "S1" ∧
  untimed <$> get_deployment (call (call lab_started c) c') "S1"
    = untimed <$> get_deployment (call lab_started c) "S1".
Proof.
  intros c c'. split; [reflexivity|]. split.
  - vm_compute. intros [=].
  - by apply (call_repeated lab_started c c' "S1").
Defined.

(** ** The deployments a store lists *)

Lemma stored_keys_persist_known st site d0 d :
  get_deployment st site = Some d0 →
  stored_keys (persist st site d) = stored_keys st.
Proof.
  unfold get_deployment, stored_keys, persist, client_get, client_set.
  destruct (client st) as [c|]; [|done]. intros Hd. cbn.
  rewrite dom_insert_L.
  apply subseteq_union_1_L, singleton_subseteq_l, elem_of_dom. by eexists.
Qed.

Lemma stored_keys_write_back st site r :
  (is_Some (fst r) → is_Some (get_deployment st site)) →
  stored_keys (fst (write_back st site r)) = stored_keys st.
Proof.
  intros Hr. unfold write_back. destruct (fst r) as [d|]; [|done].
  destruct Hr as [d0 Hd0]; [by eexists|]. cbn [fst].
  by eapply stored_keys_persist_known.
Qed.

Lemma client_write_back st site r :
  is_Some (client st) → is_Some (client (fst (write_back st site r))).
Proof.
  intros [c Hc]. unfold write_back, persist.
  destruct (fst r); cbn [fst]; rewrite Hc; by eexists.
Qed.

Lemma stored_keys_call st c :
  is_Some (client st) →
  is_Some (client (call st c)) ∧
  stored_keys (call st c)
    = list_to_set (List.map _key (created_sites [c])) ∪ stored_keys st.
Proof.
  intros Hcl.
  destruct c as [site org nm now|site n nm t1 t2|site n res t1 t2
                 |site n err t1 t2]; cbn [call created_sites flat_map app List.map].
  - destruct Hcl as [c Hc].
    unfold create_deployment, persist, stored_keys, client_set.
    cbn [fst]. rewrite Hc. cbn [client]. split; [by eexists|].
    rewrite dom_insert_L. cbn. by rewrite (right_id_L ∅ (∪)).
  - split; [by apply client_write_back|].
    unfold start_step. rewrite stored_keys_write_back by apply start_step_on_Some.
    cbn. by rewrite (left_id_L ∅ (∪)).
  - split; [by apply client_write_back|].
    unfold complete_step.
    rewrite stored_keys_write_back by apply complete_step_on_Some.
    cbn. by rewrite (left_id_L ∅ (∪)).
  - split; [by apply client_write_back|].
    unfold fail_step. rewrite stored_keys_write_back by apply fail_step_on_Some.
    cbn. by rewrite (left_id_L ∅ (∪)).
Qed.

Lemma stored_keys_run cs : ∀ st,
  is_Some (client st) →
  is_Some (client (run st cs)) ∧
  stored_keys (run st cs)
    = list_to_set (List.map _key (created_sites cs)) ∪ stored_keys st.
Proof.
  induction cs as [|c cs IH]; intros st Hcl.
  - split; [done|]. cbn. by rewrite (left_id_L ∅ (∪)).
  - rewrite run_cons. destruct (stored_keys_call st c Hcl) as [Hcl1 Hk1].
    destruct (IH _ Hcl1) as [Hcl2 Hk2]. split; [done|].
    rewrite Hk2, Hk1. change (c :: cs) with (app [c] cs).
    unfold created_sites. rewrite flat_map_app, map_app, list_to_set_app_L.
    rewrite (assoc_L (∪)). f_equal. apply (comm_L (∪)).
Qed.

Lemma filter_all {A} (f : A → bool) (l : list A) :
  (∀ x, In x l → f x = true) → List.filter f l = l.
Proof.
  induction l as [|x l IH]; intros Hl; simpl; [done|].
  rewrite (Hl x) by (by left). f_equal. apply IH. intros y Hy. apply Hl. by right.
Qed.

Lemma in_keys_dom (c : RedisClient) (k : string) :
  In k (List.map fst (map_to_list c)) ↔ k ∈ dom c.
Proof.
  rewrite elem_of_dom, in_map_iff. split.
  - intros [[k' d] [Hk Hin]]. simpl in Hk. subst k'.
    apply list_elem_of_In, elem_of_map_to_list in Hin. by eexists.
  - intros [d Hd]. exists (k, d). split; [done|].
    by apply list_elem_of_In, elem_of_map_to_list.
Qed.

(** X12: in a state reached from an empty store, the persisted keys are
    the keys of the sites for which [create_deployment] was called;
    [start_step], [complete_step] and [fail_step] never add or remove a
    deployment. [list_deployments] returns one entry for each of these
    keys, the entry of a site being its key with every occurrence of
    [deployment:] taken out. *)
Theorem list_deployments_reachable cs :
  let st := run empty_store cs in
  stored_keys st = list_to_set (List.map _key (created_sites cs)) ∧
  length (list_deployments st) = size (stored_keys st) ∧
  ∀ x, In x (list_deployments st) ↔
       ∃ site, In site (created_sites cs) ∧ x = listed_as site.
Proof.
  intros st.
  destruct (stored_keys_run cs empty_store) as [[c Hc] Hkeys];
    [by eexists|]. fold st in Hc, Hkeys.
  assert (stored_keys st = list_to_set (List.map _key (created_sites cs)))
    as Hk.
  { assert (stored_keys empty_store = ∅) as He by apply dom_empty_L.
    by rewrite Hkeys, He, (right_id_L ∅ (∪)). }
  split; [done|].
  assert (client_keys c "deployment:" = List.map fst (map_to_list c)) as Hall.
  { apply filter_all. intros k Hin. apply in_keys_dom in Hin.
    unfold stored_keys in Hk. rewrite Hc in Hk. rewrite Hk in Hin.
    apply elem_of_list_to_set, list_elem_of_In, in_map_iff in Hin
      as (site & <- & _).
    apply prefix_append. }
  unfold list_deployments. rewrite Hc, Hall. split.
  - rewrite !length_map. unfold stored_keys. rewrite Hc.
    rewrite size_dom. apply length_map_to_list.
  - intros x. rewrite in_map_iff. split.
    + intros (k & <- & Hin). apply in_keys_dom in Hin.
      unfold stored_keys in Hk. rewrite Hc in Hk. rewrite Hk in Hin.
      apply elem_of_list_to_set, list_elem_of_In, in_map_iff in Hin
        as (site & <- & Hsite).
      by exists site.
    + intros (site & Hsite & ->). exists (_key site). split; [done|].
      apply in_keys_dom. unfold stored_keys in Hk. rewrite Hc in Hk. rewrite Hk.
      apply elem_of_list_to_set, list_elem_of_In, in_map_iff. by exists site.
Qed.

(** ** Which site ids survive the listing *)

Lemma replace_from_length (old : string) (s : string) : ∀ k,
  (String.length (replace_from old "" k s) ≤ String.length s)%nat.
Proof.
  induction s as [|c s IH]; intros k; [done|].
  cbn [replace_from]. destruct k as [|k].
  - destruct (String.prefix old (String c s)).
    + change ("" ++ ?x) with x. specialize (IH (String.length old - 1)).
      cbn [String.length]. lia.
    + cbn [String.length]. specialize (IH 0). lia.
  - specialize (IH k). cbn [String.length]. lia.
Qed.

Lemma replace_from_shrinks (old s : string) :
  old ≠ "" → occurs old s = true →
  (String.length (replace_from old "" 0 s) < String.length s)%nat.
Proof.
  intros Hold. induction s as [|c s IH]; intros Hocc.
  - destruct old; [done|]. by cbn in Hocc.
  - cbn [occurs] in Hocc. cbn [replace_from].
    destruct (String.prefix old (String c s)) eqn:Hp.
    + change ("" ++ ?x) with x.
      pose proof (replace_from_length old s (String.length old - 1)).
      cbn [String.length]. lia.
    + cbn [orb] in Hocc. specialize (IH Hocc). cbn [String.length]. lia.
Qed.

Lemma listed_as_eq (site : string) :
  listed_as site = replace_from "deployment:" "" 0 site.
Proof.
  unfold listed_as, str_replace, _key.
  pose proof (prefix_append "deployment:" site) as Hp.
  change ("deployment:" ++ site) with (String "d" ("eployment:" ++ site)) in *.
  cbn [replace_from]. rewrite Hp. exact eq_refl.
Qed.

(** X13: the entry [list_deployments] returns for a site is the site id
    itself exactly when [deployment:] does not occur in the site id. *)
Theorem listed_as_site_id (site : string) :
  listed_as site = site ↔ occurs "deployment:" site = false.
Proof.
  rewrite listed_as_eq. split.
  - intros Heq. destruct (occurs "deployment:" site) eqn:Hocc; [|done].
    pose proof (replace_from_shrinks "deployment:" site ltac:(done) Hocc) as Hlt.
    rewrite Heq in Hlt. lia.
  - apply replace_from_no_occurrence.
Qed.

(* ================================================================== *)
(** * Further properties of the subnet calculator *)

(** ** Printing integers *)

Lemma int_of_string_of_int (d : Decimal.int) :
  ∃ d', NilZero.int_of_string (NilZero.string_of_int d) = Some d' ∧
        Z.of_int d' = Z.of_int d.
Proof.
  destruct d as [u|u]; destruct u;
    try (by eexists);
    (eexists; split; [by apply NilZero.isi|done]).
Qed.

Lemma str_of_int_inj (a b : Z) : str_of_int a = str_of_int b → a = b.
Proof.
  unfold str_of_int. intros Heq.
  destruct (int_of_string_of_int (Z.to_int a)) as (da & Ha & Hza).
  destruct (int_of_string_of_int (Z.to_int b)) as (db & Hb & Hzb).
  rewrite Heq in Ha. assert (da = db) as -> by congruence.
  rewrite <-(DecimalZ.of_to a), <-(DecimalZ.of_to b). congruence.
Qed.

Lemma no_dot_uint (d : Decimal.uint) :
  no_dot (NilEmpty.string_of_uint d) = true.
Proof. induction d; cbn; done. Qed.

Lemma no_dot_str_of_int (a : Z) : no_dot (str_of_int a) = true.
Proof.
  unfold str_of_int, NilZero.string_of_int, NilZero.string_of_uint.
  destruct (Z.to_int a) as [d|d]; destruct d; cbn; try done;
    apply no_dot_uint.
Qed.

(** Two strings without dots, each followed by a dot and a rest, are
    equal as wholes only when they are equal part by part. *)
Lemma split_at_dot (u u' r r' : string) :
  no_dot u = true → no_dot u' = true →
  u ++ String "." r = u' ++ String "." r' → u = u' ∧ r = r'.
Proof.
  revert u'. induction u as [|c u IH]; intros [|c' u'] Hu Hu' Heq;
    cbn in Hu, Hu', Heq.
  - by injection Heq as ->.
  - injection Heq as <- _. by cbn in Hu'.
  - injection Heq as -> _. by cbn in Hu.
  - apply andb_true_iff in Hu as [_ Hu]. apply andb_true_iff in Hu' as [_ Hu'].
    injection Heq as -> Heq. destruct (IH u' Hu Hu' Heq) as [-> ->]. done.
Qed.

(** ** Subnets as strings *)

Lemma subnet24_inj (a b a' b' : Z) :
  subnet24 a b = subnet24 a' b' → a = a' ∧ b = b'.
Proof.
  unfold subnet24. intros Heq.
  change ("10." ++ ?x) with (String "1" (String "0" (String "." x))) in Heq.
  injection Heq as Heq.
  change ("." ++ ?x) with (String "." x) in Heq.
  apply split_at_dot in Heq as [Ha Hb]; [|apply no_dot_str_of_int..].
  change ".0/24" with (String "." "0/24") in Hb.
  apply split_at_dot in Hb as [Hb _]; [|apply no_dot_str_of_int..].
  split; by apply str_of_int_inj.
Qed.

Lemma subnets_of_offsets zone site a :
  calculate_site_subnets zone site = inr a →
  subnets_of a = List.map (λ o, subnet24 (o + zone) site) vlan_offsets ∧
  zone_id a = zone ∧ alloc_site_id a = site ∧
  (1 ≤ zone ≤ 255)%Z ∧ (1 ≤ site ≤ 255)%Z.
Proof.
  unfold calculate_site_subnets.
  destruct (1 <=? zone)%Z eqn:H1, (zone <=? 255)%Z eqn:H2; cbn; try done.
  destruct (1 <=? site)%Z eqn:H3, (site <=? 255)%Z eqn:H4; cbn; try done.
  intros [= <-]. cbn. repeat split; lia.
Qed.

(** X14: [calculate_site_subnets] returns an allocation exactly when the
    zone id and the site id both lie in 1..255, and the allocation
    carries the two ids it was given; otherwise it raises, naming the
    zone id when that is out of range (also when the site id is too),
    and the site id only when the zone id is in range. *)
Theorem calculate_site_subnets_range zone site :
  ((∃ a, calculate_site_subnets zone site = inr a ∧
         zone_id a = zone ∧ alloc_site_id a = site)
     ↔ (1 ≤ zone ≤ 255)%Z ∧ (1 ≤ site ≤ 255)%Z) ∧
  (¬ (1 ≤ zone ≤ 255)%Z →
     calculate_site_subnets zone site
       = inl ("Zone ID must be 1-255, got " ++ str_of_int zone)) ∧
  ((1 ≤ zone ≤ 255)%Z → ¬ (1 ≤ site ≤ 255)%Z →
     calculate_site_subnets zone site
       = inl ("Site ID must be 1-255, got " ++ str_of_int site)).
Proof.
  unfold calculate_site_subnets.
  destruct (Z.leb_spec 1 zone), (Z.leb_spec zone 255); cbn;
    try (split; [split; [by intros (? & ? & _)|lia]|split; [done|lia]]).
  destruct (Z.leb_spec 1 site), (Z.leb_spec site 255); cbn;
    try (split; [split; [by intros (? & ? & _)|lia]|split; [lia|done]]).
  split; [|split; lia]. split; [lia|]. intros _. by eexists.
Qed.

(** X15: the five subnets of an allocation are pairwise different. *)
Theorem allocation_subnets_distinct zone site a :
  calculate_site_subnets zone site = inr a →
  NoDup (subnets_of a).
Proof.
  intros (-> & _)%subnets_of_offsets.
  apply (NoDup_fmap_2_strong (λ o, subnet24 (o + zone) site)).
  - intros o1 o2 _ _ Heq. apply subnet24_inj in Heq as [Heq _]. lia.
  - unfold vlan_offsets. apply (bool_decide_unpack _). by vm_compute.
Qed.

Lemma allocation_subnets_distinct_witness :
  ∃ a, calculate_site_subnets 1 55 = inr a ∧
       management_subnet a = "10.1.55.0/24" ∧
       data_subnet a = "10.101.55.0/24" ∧
       NoDup (subnets_of a).
Proof.
  eexists. split; [reflexivity|]. split; [reflexivity|]. split; [reflexivity|].
  by apply (allocation_subnets_distinct 1 55).
Defined.

Lemma subnets_shared_offsets z1 s1 z2 s2 a1 a2 :
  calculate_site_subnets z1 s1 = inr a1 →
  calculate_site_subnets z2 s2 = inr a2 →
  (∃ x, In x (subnets_of a1) ∧ In x (subnets_of a2)) →
  s1 = s2 ∧ ∃ o1 o2, In o1 vlan_offsets ∧ In o2 vlan_offsets ∧
                     (o1 + z1 = o2 + z2)%Z.
Proof.
  intros (-> & _)%subnets_of_offsets (-> & _)%subnets_of_offsets.
  intros (x & (o1 & <- & Ho1)%in_map_iff & (o2 & Heq & Ho2)%in_map_iff).
  apply subnet24_inj in Heq as [Hz Hs]. split; [done|]. by exists o1, o2.
Qed.

(** X16: the allocations of two accepted (zone, site) pairs have a subnet
    in common exactly when the site ids are equal and the zone ids,
    each shifted by one of the offsets 0, 100, 150, 200, 220, meet. *)
Theorem subnets_shared_iff z1 s1 z2 s2 a1 a2 :
  calculate_site_subnets z1 s1 = inr a1 →
  calculate_site_subnets z2 s2 = inr a2 →
  (∃ x, In x (subnets_of a1) ∧ In x (subnets_of a2)) ↔
  s1 = s2 ∧ ∃ o1 o2, In o1 vlan_offsets ∧ In o2 vlan_offsets ∧
                     (o1 + z1 = o2 + z2)%Z.
Proof.
  intros H1 H2. split; [by apply subnets_shared_offsets|].
  apply subnets_of_offsets in H1 as (-> & _).
  apply subnets_of_offsets in H2 as (-> & _).
  - intros (-> & o1 & o2 & Ho1 & Ho2 & Heq).
    exists (subnet24 (o1 + z1) s2). split; apply in_map_iff.
    + by exists o1.
    + exists o2. by rewrite Heq.
Qed.

Lemma subnets_shared_iff_witness :
  ∃ a1 a2,
    calculate_site_subnets 1 5 = inr a1 ∧
    calculate_site_subnets 21 5 = inr a2 ∧
    ∃ x, In x (subnets_of a1) ∧ In x (subnets_of a2).
Proof.
  eexists _, _. split; [reflexivity|]. split; [reflexivity|].
  eapply (subnets_shared_iff 1 5 21 5); [reflexivity..|].
  split; [done|]. exists 220%Z, 200%Z. cbn. by auto 10.
Defined.

(** X17: for zone ids 1..20 the scheme is sound: the allocations of two
    different (zone, site) pairs with zones in 1..20 and sites in 1..255
    have no subnet in common. *)
Theorem subnets_disjoint_small_zones z1 s1 z2 s2 a1 a2 x :
  calculate_site_subnets z1 s1 = inr a1 →
  calculate_site_subnets z2 s2 = inr a2 →
  (z1 ≤ 20)%Z → (z2 ≤ 20)%Z →
  (z1, s1) ≠ (z2, s2) →
  In x (subnets_of a1) → ¬ In x (subnets_of a2).
Proof.
  intros H1 H2 Hz1 Hz2 Hne Hx1 Hx2.
  pose proof (subnets_of_offsets _ _ _ H1) as (_ & _ & _ & Hr1 & _).
  pose proof (subnets_of_offsets _ _ _ H2) as (_ & _ & _ & Hr2 & _).
  destruct (subnets_shared_offsets z1 s1 z2 s2 a1 a2 H1 H2)
    as (-> & o1 & o2 & Ho1 & Ho2 & Heq); [by exists x|].
  apply Hne. f_equal.
  unfold vlan_offsets in Ho1, Ho2. cbn in Ho1, Ho2.
  destruct Ho1 as [<-|[<-|[<-|[<-|[<-|[]]]]]],
           Ho2 as [<-|[<-|[<-|[<-|[<-|[]]]]]]; lia.
Qed.

Lemma subnets_disjoint_small_zones_witness :
  ∃ a1 a2,
    calculate_site_subnets 1 5 = inr a1 ∧
    calculate_site_subnets 20 5 = inr a2 ∧
    ¬ In (data_subnet a1) (subnets_of a2).
Proof.
  eexists _, _. split; [reflexivity|]. split; [reflexivity|].
  apply (subnets_disjoint_small_zones 1 5 20 5 _ _ _ eq_refl eq_refl);
    [lia|lia|done|]. cbn. auto.
Defined.

(** ** The summary of a zone *)

Lemma upto_dot_no_dot (u r : string) (k : nat) :
  no_dot u = true →
  upto_dot k (u ++ String "." r)
    = u ++ match k with
           | O => "."
           | S k' => String "." (upto_dot k' r)
           end.
Proof.
  induction u as [|c u IH]; intros Hu.
  - cbn. by destruct k.
  - cbn in Hu. apply andb_true_iff in Hu as [Hc Hu].
    apply negb_true_iff in Hc.
    change (String c u ++ ?x) with (String c (u ++ x)).
    cbn [upto_dot]. rewrite Hc. by rewrite IH.
Qed.

Lemma network16_octets (x : Z) (rest : string) :
  network16 ("10." ++ str_of_int x ++ String "." rest) = octets2 x.
Proof.
  unfold network16, octets2.
  change ("10." ++ ?y) with (String "1" (String "0" (String "." y))).
  cbn [upto_dot Ascii.eqb Bool.eqb]. do 3 f_equal.
  by rewrite upto_dot_no_dot by apply no_dot_str_of_int.
Qed.

Lemma octets2_inj (x y : Z) : octets2 x = octets2 y → x = y.
Proof.
  unfold octets2. intros Heq.
  change ("10." ++ ?z) with (String "1" (String "0" (String "." z))) in Heq.
  injection Heq as Heq.
  change "." with (String "." "") in Heq.
  apply split_at_dot in Heq as [Heq _]; [|apply no_dot_str_of_int..].
  by apply str_of_int_inj.
Qed.

(** X18: [calculate_zone_summary] agrees with [calculate_site_subnets]:
    for every accepted site of a zone, each of the five subnets lies in
    the /16 range the summary of the zone reports under the matching key
    (they have the same first two octets), and the five ranges of a zone
    have pairwise different first two octets, so a subnet lies in no
    other range of its zone. The summary reports [max_sites] 255 and the
    zone id it was given. *)
Theorem zone_summary_covers_sites zone site a :
  calculate_site_subnets zone site = inr a →
  let summary := calculate_zone_summary zone in
  List.map network16 (subnets_of a)
    = List.map (λ v, network16 (summary_string v)) (summary_ranges summary) ∧
  NoDup (List.map (λ v, network16 (summary_string v)) (summary_ranges summary)) ∧
  dict_get "max_sites" summary = Some (VInt 255) ∧
  dict_get "zone_id" summary = Some (VInt zone).
Proof.
  intros (Hsub & _)%subnets_of_offsets summary.
  assert (List.map (λ v, network16 (summary_string v)) (summary_ranges summary)
          = List.map (λ o, octets2 (o + zone)) vlan_offsets) as Hr.
  { unfold summary, summary_ranges, calculate_zone_summary, vlan_offsets.
    cbn [List.map dict_get String.eqb Ascii.eqb Bool.eqb summary_string].
    unfold range16.
    change ".0.0/16" with (String "." "0.0/16").
    rewrite !network16_octets. repeat f_equal; lia. }
  rewrite Hr, Hsub. split; [|split; [|done]].
  - unfold vlan_offsets, subnet24. cbn [List.map].
    change ("." ++ ?y) with (String "." y).
    by rewrite !network16_octets.
  - apply (NoDup_fmap_2_strong (λ o, octets2 (o + zone))).
    + intros o1 o2 _ _ Heq. apply octets2_inj in Heq. lia.
    + unfold vlan_offsets. apply (bool_decide_unpack _). by vm_compute.
Qed.

Lemma zone_summary_covers_sites_witness :
  ∃ a, calculate_site_subnets 1 55 = inr a ∧
       network16 (voice_subnet a) = "10.151." ∧
       dict_get "voice_range" (calculate_zone_summary 1)
         = Some (VStr "10.151.0.0/16") ∧
       List.map network16 (subnets_of a)
         = List.map (λ v, network16 (summary_string v))
             (summary_ranges (calculate_zone_summary 1)).
Proof.
  eexists. split; [reflexivity|]. split; [reflexivity|]. split; [reflexivity|].
  by apply (zone_summary_covers_sites 1 55).
Defined.

(* ================================================================== *)
(** * Completing two steps one after the other *)

Lemma get_complete_step_cases st site n res t1 t2 site' :
  get_deployment (fst (complete_step st site n res t1 t2)) site' =
    if decide (site = site')
    then after_complete (get_deployment st site) n res t1 t2
    else get_deployment st site'.
Proof.
  rewrite get_complete_step. unfold after_complete.
  destruct (fst _); case_decide; by subst.
Qed.

Lemma after_complete_commute o n1 n2 res1 res2 ta1 ta2 tb1 tb2 :
  n1 ≠ n2 →
  untimed <$> after_complete (after_complete o n1 res1 ta1 ta2) n2 res2 tb1 tb2
  = untimed <$> after_complete (after_complete o n2 res2 tb1 tb2) n1 res1 ta1 ta2.
Proof.
  intros Hne. destruct o as [d|]; [|done]. unfold after_complete.
  destruct (steps d !! n1) as [s1|] eqn:Hs1, (steps d !! n2) as [s2|] eqn:Hs2.
  - rewrite (complete_step_on_eq d n1 res1 ta1 ta2 s1 Hs1).
    rewrite (complete_step_on_eq d n2 res2 tb1 tb2 s2 Hs2). cbn [fst].
    erewrite !complete_step_on_eq
      by (cbn [steps]; rewrite lookup_insert_ne by done; eassumption).
    cbn [fst fmap option_fmap option_map]. f_equal. unfold untimed.
    cbn [site_id org_id site_name dstatus steps current_step total_steps].
    rewrite !fmap_insert.
    rewrite (insert_insert_ne (untimed_step <$> steps d) n2 n1) by done.
    f_equal. unfold status_for_count.
    cbn [total_steps dstatus].
    set (x1 := mkStepState (step_num s1) (name s1) StepStatus.COMPLETED
                 (started_at s1) (Some ta1) res1 (error s1)).
    set (x2 := mkStepState (step_num s2) (name s2) StepStatus.COMPLETED
                 (started_at s2) (Some tb1) res2 (error s2)).
    rewrite (insert_insert_ne (steps d) n2 n1 x2 x1) by done.
    pose proof (completed_count_insert_completed (<[n1:=x1]> (steps d)) n2 x2 s2) as H12.
    rewrite lookup_insert_ne in H12 by done. specialize (H12 Hs2 eq_refl).
    pose proof (completed_count_insert_completed (<[n2:=x2]> (steps d)) n1 x1 s1) as H21.
    rewrite lookup_insert_ne in H21 by done. specialize (H21 Hs1 eq_refl).
    rewrite (insert_insert_ne (steps d) n2 n1 x2 x1) in H12 by done.
    set (c12 := completed_count (<[n1:=x1]> (<[n2:=x2]> (steps d)))) in *.
    set (c1 := completed_count (<[n1:=x1]> (steps d))) in *.
    set (c2 := completed_count (<[n2:=x2]> (steps d))) in *.
    clearbody c12 c1 c2.
    destruct (Z.leb_spec (total_steps d) c12), (Z.leb_spec (total_steps d) c1),
             (Z.leb_spec (total_steps d) c2); try done; lia.
  - rewrite (complete_step_on_eq d n1 res1 ta1 ta2 s1 Hs1).
    rewrite (complete_step_on_unknown d n2) by done. cbn [fst].
    rewrite complete_step_on_unknown
      by (cbn [steps]; by rewrite lookup_insert_ne).
    by rewrite (complete_step_on_eq d n1 res1 ta1 ta2 s1 Hs1).
  - rewrite (complete_step_on_eq d n2 res2 tb1 tb2 s2 Hs2).
    rewrite (complete_step_on_unknown d n1) by done. cbn [fst].
    rewrite (complete_step_on_eq d n2 res2 tb1 tb2 s2 Hs2). cbn [fst].
    by rewrite complete_step_on_unknown
      by (cbn [steps]; by rewrite lookup_insert_ne).
  - by rewrite !complete_step_on_unknown.
Qed.

(** X19: two [complete_step] calls for different steps of a site, made
    one after the other, give the same persisted aggregates in either
    order, timestamps apart: the same steps with their statuses and
    results, and the same aggregate status. *)
Theorem complete_steps_commute st site n1 n2 res1 res2 ta1 ta2 tb1 tb2 site' :
  n1 ≠ n2 →
  untimed <$> get_deployment
      (complete_step_serial st site n1 n2 res1 res2 ta1 ta2 tb1 tb2) site'
  = untimed <$> get_deployment
      (complete_step_serial st site n2 n1 res2 res1 tb1 tb2 ta1 ta2) site'.
Proof.
  intros Hne. unfold complete_step_serial. cbn zeta.
  rewrite !get_complete_step_cases. case_decide as Hs; [|done].
  rewrite !decide_True by done. by apply after_complete_commute.
Qed.

Lemma complete_steps_commute_witness :
  (1 ≠ 2)%Z ∧
  untimed <$> get_deployment
      (complete_step_serial lab_started "S1" 1 2 None (Some "{}")
         "t3" "t4" "t5" "t6") "S1"
  = untimed <$> get_deployment
      (complete_step_serial lab_started "S1" 2 1 (Some "{}") None
         "t5" "t6" "t3" "t4") "S1" ∧
  step_status
    (complete_step_serial lab_started "S1" 2 1 (Some "{}") None
       "t5" "t6" "t3" "t4") "S1" 1 = Some StepStatus.COMPLETED.
Proof.
  split; [done|]. split; [|by vm_compute].
  by apply (complete_steps_commute lab_started "S1" 1 2).
Defined.

(* ================================================================== *)
(** * The completion law on the documented step numbers *)

Lemma steps_in_range_insert d n x (v : DeploymentStatus.t) (cur : option Z) t2 :
  steps_in_range d →
  (1 ≤ n ≤ default_total_steps)%Z →
  steps_in_range
    (mkDeploymentState (site_id d) (org_id d) (site_name d) v
       (<[n := x]> (steps d)) cur (total_steps d) (created_at d) t2).
Proof.
  intros [Htot Hkeys] Hn. split; [done|]. cbn. intros k.
  destruct (decide (n = k)) as [->|Hne]; [done|].
  rewrite lookup_insert_ne by done. apply Hkeys.
Qed.

Lemma steps_in_range_call st c :
  (∀ site d, get_deployment st site = Some d → steps_in_range d) →
  call_in_range c = true →
  ∀ site d, get_deployment (call st c) site = Some d → steps_in_range d.
Proof.
  intros Hst Hc site d' Hd'.
  apply get_call_inv in Hd' as
    [Hd'|[(org & nm & now & -> & ->)|[(d & n & nm & t1 & t2 & -> & Hd & Hon)
    |[(d & n & res & t1 & t2 & -> & Hd & Hon)
     |(d & n & err & t1 & t2 & -> & Hd & Hon)]]]].
  - by eapply Hst.
  - split; [done|]. cbn. intros n [s Hs]. by rewrite lookup_empty in Hs.
  - rewrite start_step_on_eq in Hon. injection Hon as <-.
    apply steps_in_range_insert; [by eapply Hst|].
    cbn in Hc. apply andb_true_iff in Hc as [H1 H2]. lia.
  - destruct (steps d !! n) as [s|] eqn:Hs;
      [|by rewrite complete_step_on_unknown in Hon].
    rewrite (complete_step_on_eq d n res t1 t2 s Hs) in Hon. injection Hon as <-.
    pose proof (Hst site d Hd) as Hd0.
    apply steps_in_range_insert; [done|]. apply Hd0. by eexists.
  - destruct (steps d !! n) as [s|] eqn:Hs;
      [|by rewrite fail_step_on_unknown in Hon].
    rewrite (fail_step_on_eq d n err t1 t2 s Hs) in Hon. injection Hon as <-.
    pose proof (Hst site d Hd) as Hd0.
    apply steps_in_range_insert; [done|]. apply Hd0. by eexists.
Qed.

Lemma steps_in_range_run cs : ∀ st,
  (∀ site d, get_deployment st site = Some d → steps_in_range d) →
  in_step_range cs = true →
  ∀ site d, get_deployment (run st cs) site = Some d → steps_in_range d.
Proof.
  induction cs as [|c cs IH]; intros st Hst Hcs; [done|].
  cbn [in_step_range forallb] in Hcs. apply andb_true_iff in Hcs as [Hc Hcs].
  rewrite run_cons. apply IH; [|done]. by apply steps_in_range_call.
Qed.

Lemma steps_in_range_reachable cs site d :
  in_step_range cs = true →
  get_deployment (run empty_store cs) site = Some d →
  steps_in_range d.
Proof.
  intros Hcs Hd. apply (steps_in_range_run cs empty_store) with site; [|done..].
  intros site' d'. by vm_compute.
Qed.

(** An aggregate whose step numbers are in range holds at most
    [total_steps] steps. *)
Lemma steps_in_range_size d :
  steps_in_range d → (Z.of_nat (size (steps d)) ≤ total_steps d)%Z.
Proof.
  intros [Htot Hkeys]. rewrite Htot.
  assert (dom (steps d) ⊆ (list_to_set (seqZ 1 default_total_steps) : gset Z))
    as Hsub.
  { intros n Hn. apply elem_of_dom, Hkeys in Hn.
    apply elem_of_list_to_set, elem_of_seqZ. lia. }
  apply subseteq_size in Hsub.
  rewrite size_dom, size_list_to_set, length_seqZ in Hsub by apply NoDup_seqZ.
  unfold default_total_steps in *. lia.
Qed.

(** What the status is once enough steps are completed, in range. *)
Lemma completed_when_count_reached cs site d :
  in_step_range cs = true →
  get_deployment (run empty_store cs) site = Some d →
  (total_steps d ≤ completed_count (steps d))%Z →
  dstatus d = DeploymentStatus.COMPLETED.
Proof.
  intros Hcs Hd Hle.
  destruct (agg_inv_reachable cs site d Hd) as [_ HJ].
  apply HJ; [done|]. by eapply steps_in_range_size, steps_in_range_reachable.
Qed.

(** C3: on the documented step numbers (every [start_step] of the run
    uses a step number in 1..13) and for every persisted deployment:
    once [complete_step] has been called in turn for [total_steps]
    distinct steps, each stored (started) before, [get_deployment] has
    status [COMPLETED]; in whatever order the calls came, the status is
    [COMPLETED] whenever [total_steps] distinct steps stand [COMPLETED];
    and calling [complete_step] again for a step that is already
    [COMPLETED] leaves the aggregate status unchanged. *)
Theorem completion_law cs site d :
  in_step_range cs = true →
  get_deployment (run empty_store cs) site = Some d →
  let st := run empty_store cs in
  (∀ args,
     NoDup (step_nums args) →
     Forall (λ n, is_Some (steps d !! n)) (step_nums args) →
     Z.of_nat (length args) = total_steps d →
     deployment_status (run st (complete_calls site args)) site
       = Some DeploymentStatus.COMPLETED) ∧
  (∀ ns,
     NoDup ns →
     Z.of_nat (length ns) = total_steps d →
     (∀ n, n ∈ ns → done_in d n) →
     dstatus d = DeploymentStatus.COMPLETED) ∧
  (∀ n s res t1 t2,
     steps d !! n = Some s →
     status s = StepStatus.COMPLETED →
     deployment_status (fst (complete_step st site n res t1 t2)) site
       = Some (dstatus d)).
Proof.
  intros Hcs Hd st.
  pose proof (steps_in_range_reachable cs site d Hcs Hd) as [Htot _].
  split; [|split].
  - intros args Hnd Hknown Hlen.
    destruct (run_complete_calls site args st d Hd)
      as (d1 & Hd1 & Htot1 & _ & _ & Hall1 & Hfin1).
    { intros n Hn. by apply (proj1 (Forall_forall _ _) Hknown). }
    unfold deployment_status. rewrite Hd1. cbn. f_equal. apply Hfin1.
    + intros ->. cbn in Hlen. rewrite Htot in Hlen.
      unfold default_total_steps in Hlen. lia.
    + rewrite <-Hlen.
      replace (length args) with (length (step_nums args)) by apply length_map.
      by apply completed_count_ge_keys.
  - intros ns Hnd Hlen Hdone.
    apply (completed_when_count_reached cs site d Hcs Hd).
    rewrite <-Hlen. by apply completed_count_ge_keys.
  - intros n s res t1 t2 Hs Hc.
    rewrite (complete_step_again st site n res t1 t2 d s Hd Hs Hc).
    f_equal. unfold status_for_count.
    destruct (Z.leb_spec (total_steps d) (completed_count (steps d))) as [Hle|];
      [|done].
    symmetry. by apply (completed_when_count_reached cs site d).
Qed.

Lemma completion_law_witness :
  let cs := CreateDeployment "S1" "O1" "Lab-1" "t0" :: starts "S1" (seqZ 1 13) in
  in_step_range cs = true ∧
  deployment_status (run empty_store cs) "S1"
    = Some DeploymentStatus.IN_PROGRESS ∧
  deployment_status
    (run (run empty_store cs) (complete_calls "S1" (sample_args (seqZ 1 13))))
    "S1" = Some DeploymentStatus.COMPLETED.
Proof.
  intros cs. split; [by vm_compute|]. split; [by vm_compute|].
  eapply (proj1 (completion_law cs "S1" _ ltac:(by vm_compute)
                   ltac:(vm_compute; reflexivity))).
  - apply (bool_decide_unpack _). by vm_compute.
  - apply (bool_decide_unpack _). by vm_compute.
  - by vm_compute.
Defined.

(** C4: on the documented step numbers (every [start_step] of the run
    uses a step number in 1..13), for every persisted aggregate reachable
    through [create_deployment], [start_step], [complete_step] and
    [fail_step], the status is [COMPLETED] if and only if the number of
    steps whose status is [COMPLETED] equals [total_steps]. *)
Theorem completed_iff_count cs site d :
  in_step_range cs = true →
  get_deployment (run empty_store cs) site = Some d →
  dstatus d = DeploymentStatus.COMPLETED ↔
  completed_count (steps d) = total_steps d.
Proof.
  intros Hcs Hd.
  pose proof (steps_in_range_size d (steps_in_range_reachable cs site d Hcs Hd))
    as Hsize.
  pose proof (completed_count_le_size (steps d)) as Hcount.
  destruct (agg_inv_reachable cs site d Hd) as [HK _]. split.
  - intros Hc. specialize (HK Hc). lia.
  - intros Heq. apply (completed_when_count_reached cs site d Hcs Hd). lia.
Qed.

Lemma completed_iff_count_witness :
  let cs := CreateDeployment "S1" "O1" "Lab-1" "t0" :: starts "S1" (seqZ 1 13)
              ++ complete_calls "S1" (sample_args (seqZ 1 13)) in
  in_step_range cs = true ∧
  ∃ d, get_deployment (run empty_store cs) "S1" = Some d ∧
       completed_count (steps d) = total_steps d ∧
       dstatus d = DeploymentStatus.COMPLETED.
Proof.
  intros cs. split; [by vm_compute|].
  eexists. split; [vm_compute; reflexivity|]. split; [by vm_compute|].
  apply (completed_iff_count cs "S1"); by vm_compute.
Defined.
